(** * A shallow embedding of [pkg/v1/env/env.go]

    The package is a client-side wrapper around a remote environment
    service.  Everything it talks to (the gRPC stub, docker, the file
    system, the tensor library, the logger) lives outside the file; those
    collaborators are modelled here as small explicit interfaces whose
    answers are data, so that every function of [env.go] is an executable
    Rocq function that can be run on a scripted collaborator. *)

From Stdlib Require Import ZArith Lia.
From Stdlib Require Import Floats.SpecFloat.
From stdpp Require Import base option list strings gmap pretty.

Local Open Scope Z_scope.

(** ** Go scalars *)

(** [int32(v)] for an [int] value: two's complement wrap-around. *)
Definition int32 (v : Z) : Z := (v + 2^31) mod 2^32 - 2^31.

(** [int(i)] for an [int32] value: every [int32] fits in an [int]. *)
Definition int (i : Z) : Z := i.

(** [len(s)] of a slice. *)
Definition len {A : Type} (s : list A) : Z := Z.of_nat (length s).

(** [float32] values are IEEE 754 binary32 numbers: 24 bits of precision,
    maximal exponent 128, rounding to nearest even. *)
Definition float32 : Type := spec_float.

Definition float32_zero : float32 := S754_zero false.
Definition float32_add : float32 -> float32 -> float32 := SFadd 24 128.
Definition float32_div : float32 -> float32 -> float32 := SFdiv 24 128.

(** [float32(n)] for an integer [n]. *)
Definition float32_of_int (n : Z) : float32 := binary_normalize 24 128 n 0 false.

Definition is_nan (x : float32) : bool :=
  match x with S754_nan => true | _ => false end.

(** ** Errors and the ways a Go call can end *)

Inductive error : Type :=
  | io_EOF                                    (* the sentinel [io.EOF] *)
  | external (msg : string)                   (* an error made by a collaborator *)
  | Errorf (format : string)                  (* [fmt.Errorf(format, v)], [v] not an error *)
  | Errorf_s (format : string) (err : error). (* [fmt.Errorf(format, err)] *)

(** A call either returns normally ([Ok], the error result being [nil] when
    the function has one), returns a non-nil error ([Err]), ends the process
    through [logger.Fatalf] / [log.Fatal] ([Exit]), or panics ([Panic]). *)
Inductive result (A : Type) : Type :=
  | Ok (a : A)
  | Err (e : error)
  | Exit (msg : string)
  | Panic (msg : string).
Arguments Ok {A} a.
Arguments Err {A} e.
Arguments Exit {A} msg.
Arguments Panic {A} msg.

#[global] Instance result_ret : MRet result := fun A a => Ok a.
#[global] Instance result_bind : MBind result := fun A B f r =>
  match r with
  | Ok a => f a
  | Err e => Err e
  | Exit m => Exit m
  | Panic m => Panic m
  end.

(** ** The tensor library (gorgonia), as far as [env.go] uses it *)

Record Dense : Type := { Dense_Shape : list Z; Dense_Data : list float32 }.

(** [tensor.New(tensor.WithShape(shape...), tensor.WithBacking(backing))]. *)
Definition tensor_New (shape : list Z) (backing : list float32) : Dense :=
  {| Dense_Shape := shape; Dense_Data := backing |}.

(** ** The wire messages of the remote service (package [sphere]) *)

Module sphere.

Record Tensor : Type := { Tensor_Data : list float32; Tensor_Shape : list Z }.

(** The method [Dense()] of a tensor message: the message as a dense tensor.
    This is the method on the messages the service sends, where the tensor
    is present and its shape fits its data; what the library does with a nil
    message or with a shape that does not fit is outside the model. *)
Definition Tensor_Dense (t : Tensor) : Dense :=
  tensor_New (map int (Tensor_Shape t)) (Tensor_Data t).

Record BoxSpace : Type :=
  { BoxSpace_Shape : list Z; BoxSpace_High : list float32; BoxSpace_Low : list float32 }.
Record DiscreteSpace : Type := { DiscreteSpace_N : Z }.
Record MultiDiscreteSpace : Type := { MultiDiscreteSpace_DiscreteSpaces : list Z }.
Record StructSpace : Type := { }.

(** The one-of [Info] of a space.  The wrapped messages are taken to be
    present, as they are in every message decoded from the wire. *)
Inductive isSpace_Info : Type :=
  | Space_Box (Box : BoxSpace)
  | Space_Discrete (Discrete : DiscreteSpace)
  | Space_MultiDiscrete (MultiDiscrete : MultiDiscreteSpace)
  | Space_StructSpace (StructSpace : StructSpace).

Record Space : Type := { Space_Info : option isSpace_Info }.

(** The generated getters accept a nil receiver; a pointer to a
    space is an [option Space]. *)
Definition Space_GetInfo (space : option Space) : option isSpace_Info :=
  match space with
  | Some s => Space_Info s
  | None => None
  end.

Definition Space_GetBox (space : option Space) : option BoxSpace :=
  match Space_GetInfo space with
  | Some (Space_Box b) => Some b
  | _ => None
  end.

Record Environment : Type :=
  { Id : string; ActionSpace : option Space; ObservationSpace : option Space }.

Record InfoResponse : Type := { InfoResponse_ServerName : string }.

Record StepEnvRequest : Type := { StepEnvRequest_Id : string; StepEnvRequest_Action : Z }.
Record StepEnvResponse : Type :=
  { StepEnvResponse_Observation : Tensor;
    StepEnvResponse_Reward : float32;
    StepEnvResponse_Done : bool }.

Record ResetEnvRequest : Type := { ResetEnvRequest_Id : string }.
Record ResetEnvResponse : Type := { ResetEnvResponse_Observation : Tensor }.

Record EpisodeResult : Type := { EpisodeResult_Reward : float32 }.
Record Video : Type := { Video_EpisodeId : Z }.

Record ResultsRequest : Type := { ResultsRequest_Id : string }.

(** A Go map is kept as the list of its entries in the order in which the
    one [range] loop over it visits them; Go leaves that order open, and
    nothing below depends on a particular one. *)
Record ResultsResponse : Type :=
  { ResultsResponse_EpisodeResults : list (Z * EpisodeResult);
    ResultsResponse_Videos : list (Z * Video) }.

Record GetVideoRequest : Type := { GetVideoRequest_Id : string; GetVideoRequest_EpisodeId : Z }.
Record GetVideoResponse : Type := { GetVideoResponse_Chunk : list Byte.byte }.

(** A server stream of [GetVideo]: the messages [Recv] hands out one after
    the other, the error that ends the stream ([io_EOF] for a clean end),
    and what [CloseSend] answers. *)
Record EnvironmentAPI_GetVideoClient : Type :=
  { stream_msgs : list GetVideoResponse;
    stream_end : error;
    stream_CloseSend : option error }.

(** The client stub, over a remote service whose state has type [S].  A
    call answers with a response or with an error, and moves the remote
    state.  [Info] keeps Go's pair of results, because its caller reads the
    response before it looks at the error. *)
Record EnvironmentAPIClient (S : Type) : Type :=
  { Info : S -> (option InfoResponse * option error) * S;
    StepEnv : StepEnvRequest -> S -> (StepEnvResponse + error) * S;
    ResetEnv : ResetEnvRequest -> S -> (ResetEnvResponse + error) * S;
    Results : ResultsRequest -> S -> (ResultsResponse + error) * S;
    GetVideo : GetVideoRequest -> S -> (EnvironmentAPI_GetVideoClient + error) * S }.
Arguments Info {S}.
Arguments StepEnv {S}.
Arguments ResetEnv {S}.
Arguments Results {S}.
Arguments GetVideo {S}.

Record CreateEnvRequest : Type := { CreateEnvRequest_ModelName : string }.
Record CreateEnvResponse : Type := { CreateEnvResponse_Environment : Environment }.

Record StartRecordEnvRequest : Type := { StartRecordEnvRequest_Id : string }.
Record StartRecordEnvResponse : Type := { StartRecordEnvResponse_Message : string }.

Record SampleActionRequest : Type := { SampleActionRequest_Id : string }.
Record SampleActionResponse : Type := { SampleActionResponse_Value : Z }.

Record DeleteEnvRequest : Type := { DeleteEnvRequest_Id : string }.
Record DeleteEnvResponse : Type := { DeleteEnvResponse_Message : string }.

(** The other methods of the same client stub: the ones that [Make],
    [SampleAction] and [Close] call. *)
Record EnvironmentAPIClient_rest (S : Type) : Type :=
  { CreateEnv : CreateEnvRequest -> S -> (CreateEnvResponse + error) * S;
    StartRecordEnv : StartRecordEnvRequest -> S -> (StartRecordEnvResponse + error) * S;
    SampleAction : SampleActionRequest -> S -> (SampleActionResponse + error) * S;
    DeleteEnv : DeleteEnvRequest -> S -> (DeleteEnvResponse + error) * S }.
Arguments CreateEnv {S}.
Arguments StartRecordEnv {S}.
Arguments SampleAction {S}.
Arguments DeleteEnv {S}.

End sphere.

(** ** Package [common] *)

(** Modelled from the spec: [common.Int32SliceToInt] is not part of the
    source at hand.  Shape resolution "returns its shape as a sequence of
    dimension sizes", so the helper turns a slice of [int32] into the slice
    of the same numbers as [int]. *)
Definition Int32SliceToInt (s : list Z) : list Z := map int s.

(** ** Shapes of spaces *)

(** [SpaceShape] returns the shape of the given space.  [logger.Fatalf]
    logs and ends the process, as [log.Fatalf] does. *)
Definition SpaceShape (space : option sphere.Space) : result (list Z) :=
  shape ← match sphere.Space_GetInfo space with
          | Some (sphere.Space_Box s) =>
              Ok (Int32SliceToInt (sphere.BoxSpace_Shape s))
          | Some (sphere.Space_Discrete s) =>
              Ok [1]
          | Some (sphere.Space_MultiDiscrete s) =>
              Ok [len (sphere.MultiDiscreteSpace_DiscreteSpaces s)]
          | Some (sphere.Space_StructSpace s) =>
              Exit "struct space not supported"
          | None =>
              Exit "unknown action space type: %v"
          end;
  if len shape =? 0 then Exit "space had no shape: %v" else Ok shape.

(** [PotentialsShape]: the shape of a tensor of potentials for the space. *)
Definition PotentialsShape (space : option sphere.Space) : result (list Z) :=
  shape ← match sphere.Space_GetInfo space with
          | Some (sphere.Space_Box s) =>
              Ok (Int32SliceToInt (sphere.BoxSpace_Shape s))
          | Some (sphere.Space_Discrete s) =>
              Ok [int (sphere.DiscreteSpace_N s)]
          | Some (sphere.Space_MultiDiscrete s) =>
              Ok (Int32SliceToInt (sphere.MultiDiscreteSpace_DiscreteSpaces s))
          | Some (sphere.Space_StructSpace s) =>
              Exit "struct space not supported"
          | None =>
              Exit "unknown action space type: %v"
          end;
  if len shape =? 0 then Exit "space had no shape: %v" else Ok shape.

(** ** The local file system (packages [os] and [path/filepath]) *)

Module os.

(** Files by path, with their content.  Whether an operation fails for a
    reason of the system's own (a missing directory, permissions, a full
    disk, no viewer) is not decided by the model: the [_err] fields say so. *)
Record FileSystem : Type :=
  { files : gmap string (list Byte.byte);
    Create_err : string -> option error;
    Write_err : string -> list Byte.byte -> list Byte.byte -> option error;
    Remove_err : string -> option error;
    Run_err : string -> option error }.

Definition with_files (fs : FileSystem) (m : gmap string (list Byte.byte)) : FileSystem :=
  {| files := m;
     Create_err := Create_err fs;
     Write_err := Write_err fs;
     Remove_err := Remove_err fs;
     Run_err := Run_err fs |}.

(** An open file, known by the path it was created with. *)
Definition File : Type := string.

(** [os.Create(name)]: the file is created, or truncated when it exists. *)
Definition Create (name : string) (fs : FileSystem) : (File + error) * FileSystem :=
  match Create_err fs name with
  | Some err => (inr err, fs)
  | None => (inl name, with_files fs (<[name := []]> (files fs)))
  end.

(** [f.Write(b)] on a file that is only ever written front to back: the
    bytes go to its end.  A write that fails leaves the file as it was. *)
Definition Write (f : File) (b : list Byte.byte) (fs : FileSystem) : (unit + error) * FileSystem :=
  let content := default [] (files fs !! f) in
  match Write_err fs f content b with
  | Some err => (inr err, fs)
  | None => (inl tt, with_files fs (<[f := content ++ b]> (files fs)))
  end.

(** [os.Remove(name)]: fails on a path that names no file. *)
Definition Remove (name : string) (fs : FileSystem) : (unit + error) * FileSystem :=
  match Remove_err fs name with
  | Some err => (inr err, fs)
  | None =>
      match files fs !! name with
      | Some _ => (inl tt, with_files fs (delete name (files fs)))
      | None => (inr (external "remove: no such file or directory"), fs)
      end
  end.

(** [open.Run(input)] of package [open]: hands the file to the desktop. *)
Definition open_Run (input : string) (fs : FileSystem) : (unit + error) * FileSystem :=
  match Run_err fs input with
  | Some err => (inr err, fs)
  | None => (inl tt, fs)
  end.

End os.

(** ** The package's own types *)

Module Normalizer.

(** Modelled from the spec: the interface [Normalizer] is declared outside
    the source at hand; it is "a pluggable transform applied to raw
    observations before returning them to the caller".  [Norm] takes a
    pointer to a tensor and returns one: [Norm] below is the tensor it
    returns, [Norm_arg] the tensor its argument points to once the call is
    over (the argument itself for a normalizer that does not write to
    it). *)
Record t : Type := { Norm : Dense -> Dense; Norm_arg : Dense -> Dense }.

End Normalizer.

Record Env (S : Type) : Type :=
  { Environment : sphere.Environment;
    Client : sphere.EnvironmentAPIClient S;
    VideoPaths : list string;
    Normalizer : option Normalizer.t }.
Arguments Environment {S}.
Arguments Client {S}.
Arguments VideoPaths {S}.
Arguments Normalizer {S}.

Record Outcome : Type :=
  { Observation : Dense; Action : Z; Reward : float32; Done : bool }.

Record Results : Type :=
  { Episodes : list (Z * sphere.EpisodeResult);
    Videos : list (Z * sphere.Video);
    AverageReward : float32 }.

Record BoxSpace : Type := { High : Dense; Low : Dense; Shape : list Z }.

(** ** Running a method of [*Env] *)

(** What a method can read and change: the receiver it points to, the
    remote service behind the client, and the local disk. *)
Record State (S : Type) : Type :=
  { recv : Env S; remote : S; disk : os.FileSystem }.
Arguments recv {S}.
Arguments remote {S}.
Arguments disk {S}.

Definition M (S A : Type) : Type := State S -> result A * State S.

#[global] Instance M_ret {S} : MRet (M S) := fun A a st => (Ok a, st).
#[global] Instance M_bind {S} : MBind (M S) := fun A B f m st =>
  match m st with
  | (Ok a, st') => f a st'
  | (Err e, st') => (Err e, st')
  | (Exit msg, st') => (Exit msg, st')
  | (Panic msg, st') => (Panic msg, st')
  end.

Definition raise {S A} (err : error) : M S A := fun st => (Err err, st).

(** [if err != nil { log.Fatal(err) }] after a call. *)
Definition or_Fatal {S A} (m : M S A) : M S A := fun st =>
  match m st with
  | (Err err, st') => (Exit "log.Fatal(err)", st')
  | other => other
  end.

(** The receiver [e]. *)
Definition this {S} : M S (Env S) := fun st => (Ok (recv st), st).

(** A call through the client stub. *)
Definition rpc {S A} (call : S -> (A + error) * S) : M S A := fun st =>
  match call (remote st) with
  | (inl a, s') => (Ok a, {| recv := recv st; remote := s'; disk := disk st |})
  | (inr err, s') => (Err err, {| recv := recv st; remote := s'; disk := disk st |})
  end.

(** A call to the operating system. *)
Definition sys {S A} (call : os.FileSystem -> (A + error) * os.FileSystem) : M S A := fun st =>
  match call (disk st) with
  | (inl a, fs') => (Ok a, {| recv := recv st; remote := remote st; disk := fs' |})
  | (inr err, fs') => (Err err, {| recv := recv st; remote := remote st; disk := fs' |})
  end.

(** [e.VideoPaths = videoPaths]. *)
Definition set_VideoPaths {S} (videoPaths : list string) : M S unit := fun st =>
  (Ok tt,
   {| recv := {| Environment := Environment (recv st);
                 Client := Client (recv st);
                 VideoPaths := videoPaths;
                 Normalizer := Normalizer (recv st) |};
      remote := remote st;
      disk := disk st |}).

(** ** The methods of [*Env] *)

Module Env.
Section Methods.

Context {S : Type}.

(** [filepath.Clean], the lexical normalisation that [filepath.Join]
    applies to its result, is left open. *)
Variable filepath_Clean : string -> string.

(** [filepath.Join(dir, name)] for non-empty [name]. *)
Definition filepath_Join (dir name : string) : string :=
  if decide (dir = "") then filepath_Clean name
  else filepath_Clean (dir +:+ "/" +:+ name).

(** [Step] through the environment. *)
Definition Step (value : Z) : M S Outcome :=
  e ← this;
  resp ← rpc (sphere.StepEnv (Client e)
                {| sphere.StepEnvRequest_Id := sphere.Id (Environment e);
                   sphere.StepEnvRequest_Action := int32 value |});
  let observation := sphere.Tensor_Dense (sphere.StepEnvResponse_Observation resp) in
  let observation :=
    match Normalizer e with
    | Some n => Normalizer.Norm n observation
    | None => observation
    end in
  mret {| Observation := observation;
          Action := value;
          Reward := sphere.StepEnvResponse_Reward resp;
          Done := sphere.StepEnvResponse_Done resp |}.

(** [Reset] the environment.  The named result [observation] receives the
    normalized tensor, and the function returns [t]. *)
Definition Reset : M S Dense :=
  e ← this;
  resp ← rpc (sphere.ResetEnv (Client e)
                {| sphere.ResetEnvRequest_Id := sphere.Id (Environment e) |});
  let t := sphere.Tensor_Dense (sphere.ResetEnvResponse_Observation resp) in
  match Normalizer e with
  | Some n =>
      let observation := Normalizer.Norm n t in
      let t := Normalizer.Norm_arg n t in
      mret t
  | None => mret t
  end.

(** [Results] for the environment. *)
Definition Results : M S Results :=
  e ← this;
  resp ← rpc (sphere.Results (Client e)
                {| sphere.ResultsRequest_Id := sphere.Id (Environment e) |});
  let cumulative :=
    fold_left (fun cumulative res => float32_add cumulative (sphere.EpisodeResult_Reward res.2))
              (sphere.ResultsResponse_EpisodeResults resp) float32_zero in
  let avg := float32_div cumulative
               (float32_of_int (len (sphere.ResultsResponse_EpisodeResults resp))) in
  mret {| Episodes := sphere.ResultsResponse_EpisodeResults resp;
          Videos := sphere.ResultsResponse_Videos resp;
          AverageReward := avg |}.

(** The inner [for] of [Videos]: receive until the stream ends. *)
Fixpoint recv_loop (f : os.File) (msgs : list sphere.GetVideoResponse)
    (stream_end : error) (CloseSend : option error) : M S unit :=
  match msgs with
  | resp :: msgs' =>
      _ ← sys (os.Write f (sphere.GetVideoResponse_Chunk resp));
      recv_loop f msgs' stream_end CloseSend
  | [] =>
      match stream_end with
      | io_EOF =>
          match CloseSend with
          | Some err => raise err
          | None => mret tt
          end
      | err => raise err
      end
  end.

(** The outer [for] of [Videos], over the video references. *)
Fixpoint videos_loop (path : string) (videos : list (Z * sphere.Video))
    (videoPaths : list string) : M S (list string) :=
  match videos with
  | [] => mret videoPaths
  | (_, video) :: videos' =>
      e ← this;
      stream ← rpc (sphere.GetVideo (Client e)
                      {| sphere.GetVideoRequest_Id := sphere.Id (Environment e);
                         sphere.GetVideoRequest_EpisodeId := sphere.Video_EpisodeId video |});
      let fp := filepath_Join path
                  (sphere.Id (Environment e) +:+ "-episode"
                     +:+ pretty (sphere.Video_EpisodeId video) +:+ ".mp4") in
      f ← sys (os.Create fp);
      _ ← recv_loop f (sphere.stream_msgs stream) (sphere.stream_end stream)
            (sphere.stream_CloseSend stream);
      videos_loop path videos' (videoPaths ++ [fp])
  end.

(** [Videos] saves all the videos of the episodes under [path]. *)
Definition Videos (path : string) : M S (list string) :=
  e ← this;
  let path := if decide (path = "") then "./results/" +:+ sphere.Id (Environment e) else path in
  results ← Results;
  videoPaths ← videos_loop path (Videos results) [];
  _ ← set_VideoPaths videoPaths;
  mret videoPaths.

(** The [for] of [Clean]. *)
Fixpoint clean_loop (videoPaths : list string) : M S unit :=
  match videoPaths with
  | [] => mret tt
  | videoPath :: rest =>
      _ ← or_Fatal (sys (os.Remove videoPath));
      clean_loop rest
  end.

(** [Clean] any videos saved locally. *)
Definition Clean : M S unit :=
  e ← this;
  clean_loop (VideoPaths e).

(** The [for] of [PlayAll]. *)
Fixpoint play_loop (videoPaths : list string) : M S unit :=
  match videoPaths with
  | [] => mret tt
  | video :: rest =>
      _ ← or_Fatal (sys (os.open_Run video));
      play_loop rest
  end.

(** [PlayAll] videos stored locally, then (a key pressed) remove them. *)
Definition PlayAll : M S unit :=
  e ← this;
  _ ← play_loop (VideoPaths e);
  Clean.

(** [BoxSpace] returns the box space as dense tensors. *)
Definition BoxSpace (e : Env S) : result BoxSpace :=
  let space := sphere.ObservationSpace (Environment e) in
  match sphere.Space_GetBox space with
  | Some sp =>
      let shape :=
        fold_left (fun shape i => shape ++ [int i]) (sphere.BoxSpace_Shape sp) [] in
      Ok {| High := tensor_New shape (sphere.BoxSpace_High sp);
            Low := tensor_New shape (sphere.BoxSpace_Low sp);
            Shape := shape |}
  | None => Err (Errorf "env is not a box space: %+v")
  end.

(** [ActionSpaceShape] and [ObservationSpaceShape]: the shapes of the two
    spaces of the environment. *)
Definition ActionSpaceShape (e : Env S) : result (list Z) :=
  SpaceShape (sphere.ActionSpace (Environment e)).

Definition ObservationSpaceShape (e : Env S) : result (list Z) :=
  SpaceShape (sphere.ObservationSpace (Environment e)).

(** The part of the stub in [e.Client] that the record [Client e] does not
    hold. *)
Variable Client_rest : sphere.EnvironmentAPIClient_rest S.

(** [SampleAction] returns a sample action for the environment. *)
Definition SampleAction : M S Z :=
  e ← this;
  resp ← rpc (sphere.SampleAction Client_rest
                {| sphere.SampleActionRequest_Id := sphere.Id (Environment e) |});
  mret (int (sphere.SampleActionResponse_Value resp)).

(** [Close] the environment. *)
Definition Close : M S unit :=
  e ← this;
  resp ← rpc (sphere.DeleteEnv Client_rest
                {| sphere.DeleteEnvRequest_Id := sphere.Id (Environment e) |});
  mret tt.

(** [PrintResults] for the environment. *)
Definition PrintResults : M S unit :=
  results ← Results;
  mret tt.

(** What [ioutil.TempDir(dir, prefix)] answers: the name of the directory
    it made, or an error. *)
Variable ioutil_TempDir : string -> string -> string + error.

(** [End] prints the results, saves the videos in a temporary directory and
    closes the environment; every error ends the process. *)
Definition End : M S unit :=
  _ ← or_Fatal PrintResults;
  dir ← or_Fatal (sys (fun fs => (ioutil_TempDir "" "sphere", fs)));
  videoPaths ← or_Fatal (Videos dir);
  _ ← or_Fatal Close;
  mret tt.

End Methods.
End Env.

(** ** Making an environment *)

(** An option is a function on the environment being made.  It returns
    nothing; it can read and write the environment, call the remote, and end
    the process or panic. *)
Definition Opt (S : Type) : Type := M S unit.

(** A call whose results are not looked at. *)
Definition discard {S A} (m : M S A) : M S unit := fun st =>
  match m st with
  | (Ok _, st') => (Ok tt, st')
  | (Err _, st') => (Ok tt, st')
  | (Exit msg, st') => (Exit msg, st')
  | (Panic msg, st') => (Panic msg, st')
  end.

(** [e.Normalizer = normalizer]. *)
Definition set_Normalizer {S} (normalizer : Normalizer.t) : M S unit := fun st =>
  (Ok tt,
   {| recv := {| Environment := Environment (recv st);
                 Client := Client (recv st);
                 VideoPaths := VideoPaths (recv st);
                 Normalizer := Some normalizer |};
      remote := remote st;
      disk := disk st |}).

(** Modelled from the spec: the method [Init] of the interface [Normalizer]
    is declared outside the source at hand; an option serves to "attach a
    normalizer" to the handle.  [Init] is what [normalizer.Init(e)] does, and
    [normalizer] is the normalizer as that call leaves it.  [WithNormalizer]
    calls [Init] without looking at what it returns, then sets the field. *)
Definition WithNormalizer {S} (Init : M S unit) (normalizer : Normalizer.t) : Opt S :=
  _ ← discard Init;
  set_Normalizer normalizer.

(** [for _, opt := range opts { opt(e) }]. *)
Fixpoint apply_opts {S} (opts : list (Opt S)) : M S unit :=
  match opts with
  | [] => mret tt
  | opt :: opts' => _ ← discard opt; apply_opts opts'
  end.

(** [Make] an environment.  [s_Client] and [s_rest] are the two parts of the
    stub in the field [Client] of the server; the remote is in state [s] and
    the disk is [fs]. *)
Definition Make {S} (s_Client : sphere.EnvironmentAPIClient S)
    (s_rest : sphere.EnvironmentAPIClient_rest S) (model : string) (opts : list (Opt S))
    (s : S) (fs : os.FileSystem) : result (Env S) * (S * os.FileSystem) :=
  match sphere.CreateEnv s_rest {| sphere.CreateEnvRequest_ModelName := model |} s with
  | (inr err, s1) => (Err err, (s1, fs))
  | (inl resp, s1) =>
      let env := sphere.CreateEnvResponse_Environment resp in
      match sphere.StartRecordEnv s_rest
              {| sphere.StartRecordEnvRequest_Id := sphere.Id env |} s1 with
      | (inr err, s2) => (Err err, (s2, fs))
      | (inl rresp, s2) =>
          let e := {| Environment := env;
                      Client := s_Client;
                      VideoPaths := [];
                      Normalizer := None |} in
          match apply_opts opts {| recv := e; remote := s2; disk := fs |} with
          | (Ok _, st) => (Ok (recv st), (remote st, disk st))
          | (Err err, st) => (Err err, (remote st, disk st))
          | (Exit msg, st) => (Exit msg, (remote st, disk st))
          | (Panic msg, st) => (Panic msg, (remote st, disk st))
          end
      end
  end.

(** ** Starting a server: docker, the dialer and the retry loop *)

Record ServerConfig : Type := { Image : string; Version : string; Port : string }.

Definition GymServerConfig : ServerConfig :=
  {| Image := "sphereproject/gym"; Version := "latest"; Port := "50051/tcp" |}.

Module dockertest.

(** A started container; [GetPort] maps a container port to the host port. *)
Record Resource : Type := { GetPort : string -> string }.

End dockertest.

(** A client connection of [grpc], known by the number of the dial that
    opened it. *)
Definition ClientConn : Type := nat.

(** The machine [NewLocalServer] runs on.  The first four fields script the
    collaborators: what [dockertest.NewPool] and [pool.Run] answer, and, for
    the n-th dial, what [grpc.Dial] answers for an address and what [Info]
    answers on the connection opened.  [dials] counts the dials made,
    [open_conns] lists the connections that are open, and [sphereClient] is
    the variable of that name, the stub over the connection it holds.

    [Info] is the one request whose response the code reads before it looks
    at the error, so its answer is kept as the pair Go returns, a response or
    nil and an error or nil, where the other requests are sums.  The stub
    that [sphere.NewEnvironmentAPIClient] builds answers with a response and
    no error, or with nil and the error ([generated_stub] below); the
    statements about what [NewLocalServer] does on a machine rest on such
    answers only. *)
Record Host : Type :=
  { NewPool_err : option error;
    Run_res : dockertest.Resource + error;
    Dial_err : nat -> string -> option error;
    Info_res : ClientConn -> option sphere.InfoResponse * option error;
    dials : nat;
    open_conns : list ClientConn;
    sphereClient : option ClientConn }.

Record Server : Type :=
  { Resource : dockertest.Resource; Server_Client : option ClientConn }.

Definition H (A : Type) : Type := Host -> result A * Host.

#[global] Instance H_ret : MRet H := fun A a h => (Ok a, h).
#[global] Instance H_bind : MBind H := fun A B f m h =>
  match m h with
  | (Ok a, h') => f a h'
  | (Err e, h') => (Err e, h')
  | (Exit msg, h') => (Exit msg, h')
  | (Panic msg, h') => (Panic msg, h')
  end.

(** [grpc.Dial(address, grpc.WithInsecure(), grpc.WithBlock())]: a dial that
    succeeds leaves one more open connection. *)
Definition grpc_Dial (address : string) : H ClientConn := fun h =>
  let n := dials h in
  match Dial_err h n address with
  | Some err =>
      (Err err,
       {| NewPool_err := NewPool_err h; Run_res := Run_res h; Dial_err := Dial_err h;
          Info_res := Info_res h; dials := S n; open_conns := open_conns h;
          sphereClient := sphereClient h |})
  | None =>
      (Ok n,
       {| NewPool_err := NewPool_err h; Run_res := Run_res h; Dial_err := Dial_err h;
          Info_res := Info_res h; dials := S n; open_conns := open_conns h ++ [n];
          sphereClient := sphereClient h |})
  end.

(** [sphereClient = sphere.NewEnvironmentAPIClient(conn)]. *)
Definition set_sphereClient (conn : ClientConn) : H unit := fun h =>
  (Ok tt,
   {| NewPool_err := NewPool_err h; Run_res := Run_res h; Dial_err := Dial_err h;
      Info_res := Info_res h; dials := dials h; open_conns := open_conns h;
      sphereClient := Some conn |}).

(** [sphereClient.Info(ctx, &sphere.Empty{})] on the stub over [conn]. *)
Definition client_Info (conn : ClientConn) : H (option sphere.InfoResponse * option error) :=
  fun h => (Ok (Info_res h conn), h).

Definition H_fail {A} (err : error) : H A := fun h => (Err err, h).
Definition H_panic {A} (msg : string) : H A := fun h => (Panic msg, h).

(** The function handed to [pool.Retry].  The response of [Info] is read
    for the log line before the error is looked at: a nil response panics. *)
Definition attempt (resource : dockertest.Resource) (config : ServerConfig) : H unit :=
  let address := "localhost:" +:+ dockertest.GetPort resource (Port config) in
  conn ← grpc_Dial address;
  _ ← set_sphereClient conn;
  r ← client_Info conn;
  match r.1 with
  | None => H_panic "invalid memory address or nil pointer dereference"
  | Some resp =>
      match r.2 with
      | Some err => H_fail err
      | None => mret tt
      end
  end.

(** [pool.Retry(op)] of dockertest: [op] is run again, after a pause, for as
    long as it returns an error and the time allowed is not used up; then its
    last error is returned.  The time allowed is counted here as [budget],
    the number of further runs it leaves room for. *)
Fixpoint Retry (budget : nat) (op : H unit) : H unit := fun h =>
  match op h with
  | (Err err, h') =>
      match budget with
      | O => (Err err, h')
      | S budget' => Retry budget' op h'
      end
  | other => other
  end.

(** [if err := f(); err != nil { return nil, fmt.Errorf(format, err) }]. *)
Definition wrap_err {A} (format : string) (m : H A) : H A := fun h =>
  match m h with
  | (Err err, h') => (Err (Errorf_s format err), h')
  | other => other
  end.

(** [dockertest.NewPool(endpoint)] and [pool.Run(image, version, env)]. *)
Definition dockertest_NewPool : H unit := fun h =>
  match NewPool_err h with
  | Some err => (Err err, h)
  | None => (Ok tt, h)
  end.

Definition pool_Run (image version : string) : H dockertest.Resource := fun h =>
  match Run_res h with
  | inl resource => (Ok resource, h)
  | inr err => (Err err, h)
  end.

Definition get_sphereClient : H (option ClientConn) := fun h => (Ok (sphereClient h), h).

(** [NewLocalServer] launches a container and connects to it. *)
Definition NewLocalServer (budget : nat) (config : ServerConfig) : H Server :=
  _ ← wrap_err "Could not connect to docker: %s" dockertest_NewPool;
  resource ← wrap_err "Could not start resource: %s" (pool_Run (Image config) (Version config));
  _ ← wrap_err "Could not connect to docker: %s" (Retry budget (attempt resource config));
  client ← get_sphereClient;
  mret {| Resource := resource; Server_Client := client |}.

(** * Concrete collaborators

    Scripted stand-ins for the remote service, the disk and the host, on
    which the functions above are run. *)

(** ** Spaces *)


Definition box_space (shape : list Z) (high low : list float32) : option sphere.Space :=
  Some {| sphere.Space_Info :=
            Some (sphere.Space_Box {| sphere.BoxSpace_Shape := shape;
                                      sphere.BoxSpace_High := high;
                                      sphere.BoxSpace_Low := low |}) |}.

Definition discrete_space (n : Z) : option sphere.Space :=
  Some {| sphere.Space_Info := Some (sphere.Space_Discrete {| sphere.DiscreteSpace_N := n |}) |}.

Definition multi_discrete_space (ns : list Z) : option sphere.Space :=
  Some {| sphere.Space_Info :=
            Some (sphere.Space_MultiDiscrete {| sphere.MultiDiscreteSpace_DiscreteSpaces := ns |}) |}.

Definition struct_space : option sphere.Space :=
  Some {| sphere.Space_Info := Some (sphere.Space_StructSpace sphere.Build_StructSpace) |}.

(** The variants shape resolution has a case for. *)
Definition supported (space : option sphere.Space) : bool :=
  match sphere.Space_GetInfo space with
  | Some (sphere.Space_Box _) | Some (sphere.Space_Discrete _)
  | Some (sphere.Space_MultiDiscrete _) => true
  | _ => false
  end.

Definition is_discrete (space : option sphere.Space) : bool :=
  match sphere.Space_GetInfo space with
  | Some (sphere.Space_Discrete _) => true
  | _ => false
  end.


(** ** A scripted remote service

    Its state counts the calls served; every call answers from the script. *)
Definition scripted
    (step : sphere.StepEnvResponse + error)
    (reset : sphere.ResetEnvResponse + error)
    (results : sphere.ResultsResponse + error)
    (video : Z -> sphere.EnvironmentAPI_GetVideoClient + error)
  : sphere.EnvironmentAPIClient nat :=
  {| sphere.Info := fun s =>
       ((Some {| sphere.InfoResponse_ServerName := "gym" |}, None), S s);
     sphere.StepEnv := fun _ s => (step, S s);
     sphere.ResetEnv := fun _ s => (reset, S s);
     sphere.Results := fun _ s => (results, S s);
     sphere.GetVideo := fun req s => (video (sphere.GetVideoRequest_EpisodeId req), S s) |}.

Definition f32 (n : Z) : float32 := float32_of_int n.

Definition obs (data : list Z) : sphere.Tensor :=
  {| sphere.Tensor_Data := map f32 data; sphere.Tensor_Shape := [len data] |}.

(** A normalizer that returns a fresh tensor with every entry doubled and
    leaves its argument alone. *)
Definition doubling : Normalizer.t :=
  {| Normalizer.Norm := fun d =>
       {| Dense_Shape := Dense_Shape d;
          Dense_Data := map (fun x => float32_add x x) (Dense_Data d) |};
     Normalizer.Norm_arg := fun d => d |}.

Definition CartPole : sphere.Environment :=
  {| sphere.Id := "CartPole-v1-0";
     sphere.ActionSpace := discrete_space 2;
     sphere.ObservationSpace := box_space [4] (map f32 [5; 3; 1; 3]) (map f32 [-5; -3; -1; -3]) |}.

Definition FrozenLake : sphere.Environment :=
  {| sphere.Id := "FrozenLake-v0-0";
     sphere.ActionSpace := discrete_space 4;
     sphere.ObservationSpace := discrete_space 16 |}.

Definition step_resp : sphere.StepEnvResponse :=
  {| sphere.StepEnvResponse_Observation := obs [1; 2; 3; 4];
     sphere.StepEnvResponse_Reward := f32 1;
     sphere.StepEnvResponse_Done := false |}.

Definition reset_resp : sphere.ResetEnvResponse :=
  {| sphere.ResetEnvResponse_Observation := obs [1; 2; 3; 4] |}.

Definition episode (reward : Z) : sphere.EpisodeResult :=
  {| sphere.EpisodeResult_Reward := f32 reward |}.

Definition chunk (bs : list Byte.byte) : sphere.GetVideoResponse :=
  {| sphere.GetVideoResponse_Chunk := bs |}.

(** Two episodes with a video each; episode 1 comes in two chunks. *)
Definition two_episodes : sphere.ResultsResponse :=
  {| sphere.ResultsResponse_EpisodeResults := [(0, episode 1); (1, episode 2)];
     sphere.ResultsResponse_Videos :=
       [(0, {| sphere.Video_EpisodeId := 0 |}); (1, {| sphere.Video_EpisodeId := 1 |})] |}.

Definition no_episodes : sphere.ResultsResponse :=
  {| sphere.ResultsResponse_EpisodeResults := []; sphere.ResultsResponse_Videos := [] |}.

Definition video_streams (episode_id : Z) : sphere.EnvironmentAPI_GetVideoClient + error :=
  if episode_id =? 0 then
    inl {| sphere.stream_msgs := [chunk [Byte.x00; Byte.x01]];
           sphere.stream_end := io_EOF;
           sphere.stream_CloseSend := None |}
  else
    inl {| sphere.stream_msgs := [chunk [Byte.x10]; chunk [Byte.x11; Byte.x12]];
           sphere.stream_end := io_EOF;
           sphere.stream_CloseSend := None |}.

(** The same service, with the stream of episode 1 breaking after its first
    chunk. *)
Definition broken_streams (episode_id : Z) : sphere.EnvironmentAPI_GetVideoClient + error :=
  if episode_id =? 0 then video_streams 0
  else
    inl {| sphere.stream_msgs := [chunk [Byte.x10]];
           sphere.stream_end := external "rpc error: code = Unavailable";
           sphere.stream_CloseSend := None |}.

Definition gym (results : sphere.ResultsResponse)
    (video : Z -> sphere.EnvironmentAPI_GetVideoClient + error)
  : sphere.EnvironmentAPIClient nat :=
  scripted (inl step_resp) (inl reset_resp) (inl results) video.

(** A disk on which nothing fails for reasons of its own. *)
Definition sound_disk (m : gmap string (list Byte.byte)) : os.FileSystem :=
  {| os.files := m;
     os.Create_err := fun _ => None;
     os.Write_err := fun _ _ _ => None;
     os.Remove_err := fun _ => None;
     os.Run_err := fun _ => None |}.

Definition env_of (environment : sphere.Environment) (client : sphere.EnvironmentAPIClient nat)
    (videoPaths : list string) (normalizer : option Normalizer.t) : Env nat :=
  {| Environment := environment;
     Client := client;
     VideoPaths := videoPaths;
     Normalizer := normalizer |}.

Definition start (e : Env nat) (m : gmap string (list Byte.byte)) : State nat :=
  {| recv := e; remote := O; disk := sound_disk m |}.

(** [filepath.Clean] on paths that are clean already. *)
Definition no_cleaning (p : string) : string := p.

(** An environment that has recorded two episodes, with an empty disk and
    one stale entry in [VideoPaths]; and the same with the second stream
    breaking. *)
Definition recording : State nat :=
  start (env_of CartPole (gym two_episodes video_streams) ["old.mp4"] None) ∅.

Definition recording_broken : State nat :=
  start (env_of CartPole (gym two_episodes broken_streams) ["old.mp4"] None) ∅.

(** The first of them once its videos have been saved under [/tmp/sphere]. *)
Definition recorded : State nat := (Env.Videos no_cleaning "/tmp/sphere" recording).2.

(** ** Hosts *)

Definition container : dockertest.Resource :=
  {| dockertest.GetPort := fun _ => "32768" |}.

(** A host on which docker works, nothing has been dialled yet, and the
    dialer and the service answer as given. *)
Definition host (dial : nat -> string -> option error)
    (info : ClientConn -> option sphere.InfoResponse * option error) : Host :=
  {| NewPool_err := None;
     Run_res := inl container;
     Dial_err := dial;
     Info_res := info;
     dials := O;
     open_conns := [];
     sphereClient := None |}.

Definition dial_ok : nat -> string -> option error := fun _ _ => None.

Definition dial_refused : nat -> string -> option error :=
  fun _ _ => Some (external "dial tcp 127.0.0.1:32768: connect: connection refused").

Definition unavailable : error := external "rpc error: code = Unavailable".

(** The service in the container is not up: the stub answers [Info] the way
    generated stubs do, with a nil response and the error. *)
Definition not_ready : ClientConn -> option sphere.InfoResponse * option error :=
  fun _ => (None, Some unavailable).

(** The service in the container is up. *)
Definition ready : ClientConn -> option sphere.InfoResponse * option error :=
  fun _ => (Some {| sphere.InfoResponse_ServerName := "gym" |}, None).

(** The port is not open yet for the first [n] dials. *)
Definition dial_refused_until (n : nat) : nat -> string -> option error :=
  fun i _ =>
    if decide (i < n)%nat
    then Some (external "dial tcp 127.0.0.1:32768: connect: connection refused")
    else None.

(** ** The rest of the scripted remote service, and a temporary directory *)

Definition scripted_rest
    (create : sphere.CreateEnvResponse + error)
    (record : sphere.StartRecordEnvResponse + error)
    (sample : sphere.SampleActionResponse + error)
    (delete : sphere.DeleteEnvResponse + error)
  : sphere.EnvironmentAPIClient_rest nat :=
  {| sphere.CreateEnv := fun _ s => (create, S s);
     sphere.StartRecordEnv := fun _ s => (record, S s);
     sphere.SampleAction := fun _ s => (sample, S s);
     sphere.DeleteEnv := fun _ s => (delete, S s) |}.

Definition gym_rest : sphere.EnvironmentAPIClient_rest nat :=
  scripted_rest
    (inl {| sphere.CreateEnvResponse_Environment := CartPole |})
    (inl {| sphere.StartRecordEnvResponse_Message := "recording" |})
    (inl {| sphere.SampleActionResponse_Value := 1 |})
    (inl {| sphere.DeleteEnvResponse_Message := "deleted" |}).

Definition temp_dir : string -> string -> string + error :=
  fun _ _ => inl "/tmp/sphere042".

(** * Vocabulary of the statements *)

(** A call that did not return normally. *)
Definition failed {A} (r : result A) : Prop :=
  match r with
  | Ok _ => False
  | _ => True
  end.

(** Two calls that ended in the same failure. *)
Definition same_failure {A B} (r : result A) (r' : result B) : Prop :=
  match r, r' with
  | Err e, Err e' => e = e'
  | Exit msg, Exit msg' => msg = msg'
  | Panic msg, Panic msg' => msg = msg'
  | _, _ => False
  end.

(** A method that leaves the receiver as it found it, however it ends. *)
Definition keeps_recv {S A} (m : M S A) : Prop :=
  ∀ st r st', m st = (r, st') → recv st' = recv st.

(** The file of one episode. *)
Definition video_path (filepath_Clean : string → string) (dir id : string) (episode : Z) : string :=
  Env.filepath_Join filepath_Clean dir (id +:+ "-episode" +:+ pretty episode +:+ ".mp4").

(** Everything a stream delivered, in the order of delivery. *)
Definition stream_bytes (stream : sphere.EnvironmentAPI_GetVideoClient) : list Byte.byte :=
  concat (map sphere.GetVideoResponse_Chunk (sphere.stream_msgs stream)).

(** [streams] are the streams that [GetVideo] opens, one per video reference
    and in that order, when the remote goes from state [s] to state [s'];
    each of them ends cleanly. *)
Fixpoint downloads {S} (client : sphere.EnvironmentAPIClient S) (id : string)
    (videos : list (Z * sphere.Video)) (streams : list sphere.EnvironmentAPI_GetVideoClient)
    (s s' : S) : Prop :=
  match videos, streams with
  | [], [] => s' = s
  | video :: videos', stream :: streams' =>
      ∃ s1,
        sphere.GetVideo client
          {| sphere.GetVideoRequest_Id := id;
             sphere.GetVideoRequest_EpisodeId := sphere.Video_EpisodeId video.2 |} s
        = (inl stream, s1)
        ∧ sphere.stream_end stream = io_EOF
        ∧ sphere.stream_CloseSend stream = None
        ∧ downloads client id videos' streams' s1 s'
  | _, _ => False
  end.

(** The disk after each path, in turn, has received the bytes of its
    stream as the whole content of its file. *)
Definition written (paths : list string) (streams : list sphere.EnvironmentAPI_GetVideoClient)
    (m : gmap string (list Byte.byte)) : gmap string (list Byte.byte) :=
  foldl (fun m w => <[w.1 := stream_bytes w.2]> m) m (zip paths streams).

(** The disk after the paths, in turn, have been removed. *)
Definition removed (paths : list string) (m : gmap string (list Byte.byte))
  : gmap string (list Byte.byte) :=
  foldl (fun m p => delete p m) m paths.

(** The address the retry loop dials. *)
Definition address_of (resource : dockertest.Resource) (config : ServerConfig) : string :=
  "localhost:" +:+ dockertest.GetPort resource (Port config).

(** The connections opened by the dials numbered [from], ..., [from + count - 1]
    to [address]: one for each dial that succeeds. *)
Definition opened (dial : nat → string → option error) (address : string) (from count : nat)
  : list ClientConn :=
  filter (fun n => dial n address = None) (seq from count).


(** The attempt that makes dial number [n] to [address] goes through. *)
Definition attempt_succeeds (h : Host) (address : string) (n : nat) : Prop :=
  Dial_err h n address = None
  ∧ ∃ resp, Info_res h n = (Some resp, None).

(** How a run of attempts that ended as [r], leaving [client] in the variable
    [sphereClient], was decided by the attempt that made dial number [conn]:
    it went through, or it failed with the error returned, or it panicked on
    a nil response; the process is never ended. *)
Definition decided_by (h : Host) (address : string) (conn : ClientConn)
    (client : option ClientConn) (r : result unit) : Prop :=
  match r with
  | Ok _ => attempt_succeeds h address conn ∧ client = Some conn
  | Err err =>
      Dial_err h conn address = Some err
      ∨ (Dial_err h conn address = None ∧ ∃ resp, Info_res h conn = (Some resp, Some err))
  | Panic msg =>
      msg = "invalid memory address or nil pointer dereference"
      ∧ Dial_err h conn address = None ∧ (Info_res h conn).1 = None
  | Exit _ => False
  end.

(** What [Results] returns for a remote that reports the given episodes,
    visited in the order of the list. *)
Definition results_of (episodes : list (Z * sphere.EpisodeResult)) : result Results :=
  (Env.Results
     (start (env_of CartPole
               (gym {| sphere.ResultsResponse_EpisodeResults := episodes;
                       sphere.ResultsResponse_Videos := [] |} video_streams)
               [] None) ∅)).1.

(** Two disks on which the same operations fail for reasons of the system's
    own. *)
Definition same_faults (fs fs' : os.FileSystem) : Prop :=
  os.Create_err fs' = os.Create_err fs
  ∧ os.Write_err fs' = os.Write_err fs
  ∧ os.Remove_err fs' = os.Remove_err fs
  ∧ os.Run_err fs' = os.Run_err fs.

(** A method that, however it ends, removes no file and changes no file
    other than those at the paths in [P]. *)
Definition touches_only {S A} (P : string → Prop) (m : M S A) : Prop :=
  ∀ st r st', m st = (r, st') →
    same_faults (disk st) (disk st')
    ∧ (∀ p, is_Some (os.files (disk st) !! p) → is_Some (os.files (disk st') !! p))
    ∧ (∀ p, ¬ P p → os.files (disk st') !! p = os.files (disk st) !! p).

(** The paths that can be the file of an episode of the environment [id]
    in the directory [dir]. *)
Definition is_video_path (filepath_Clean : string → string) (dir id : string) (p : string)
  : Prop :=
  ∃ episode : Z, p = video_path filepath_Clean dir id episode.

(** A method that neither ends the process nor panics: it returns, with or
    without an error. *)
Definition returns_or_errs {S A} (m : M S A) : Prop :=
  ∀ st r st', m st = (r, st') → (∃ a, r = Ok a) ∨ (∃ err, r = Err err).

(** The error a download ends with, if any: the error that ends the
    stream when that is not [io_EOF], or else the error of [CloseSend]. *)
Definition stream_failure (stream : sphere.EnvironmentAPI_GetVideoClient) : option error :=
  match sphere.stream_end stream with
  | io_EOF => sphere.stream_CloseSend stream
  | err => Some err
  end.

(** A disk on which creating and writing never fail for reasons of the
    system's own. *)
Definition writable (fs : os.FileSystem) : Prop :=
  (∀ p, os.Create_err fs p = None) ∧ (∀ p content b, os.Write_err fs p content b = None).

(** * Properties *)

(** ** Shape resolution *)

Lemma Int32SliceToInt_id (s : list Z) : Int32SliceToInt s = s.
Proof. unfold Int32SliceToInt, int. apply map_id. Qed.

(** What the guard on the length does to a shape found by the switch. *)
Lemma shape_guard (shape : list Z) :
  (if len shape =? 0 then Exit "space had no shape: %v" else Ok shape)
  = match shape with [] => Exit "space had no shape: %v" | _ :: _ => Ok shape end.
Proof. destruct shape; reflexivity. Qed.

Lemma SpaceShape_not_empty (space : option sphere.Space) : SpaceShape space ≠ Ok [].
Proof.
  unfold SpaceShape.
  destruct (sphere.Space_GetInfo space) as [[b|d|m|s]|]; simpl; try discriminate.
  rewrite shape_guard. destruct (Int32SliceToInt _); discriminate.
Qed.

Lemma PotentialsShape_not_empty (space : option sphere.Space) : PotentialsShape space ≠ Ok [].
Proof.
  unfold PotentialsShape.
  destruct (sphere.Space_GetInfo space) as [[b|d|m|s]|]; simpl; try discriminate;
    rewrite shape_guard; destruct (Int32SliceToInt _); discriminate.
Qed.

(** C3 as stated fails on a multi-discrete space of two
    sub-spaces with 3 and 4 values: it is not a discrete space, and the two
    resolutions return different sequences for it. *)
Lemma PotentialsShape_multi_discrete_differs :
  is_discrete (multi_discrete_space [3; 4]) = false
  ∧ SpaceShape (multi_discrete_space [3; 4]) = Ok [2]
  ∧ PotentialsShape (multi_discrete_space [3; 4]) = Ok [3; 4]
  ∧ PotentialsShape (multi_discrete_space [3; 4]) ≠ SpaceShape (multi_discrete_space [3; 4]).
Proof. repeat split; discriminate. Qed.

(** C3, amended: the two resolutions agree on box spaces, on struct spaces
    and on unrecognized values (where both end the process); on a discrete
    space [SpaceShape] returns [1] and [PotentialsShape] the cardinality [N];
    on a multi-discrete space [SpaceShape] returns the number of sub-spaces as
    a one-element sequence and [PotentialsShape] the sequence of the
    sub-spaces' sizes, ending the process when there is none. *)
Theorem PotentialsShape_vs_SpaceShape (space : option sphere.Space) :
  match sphere.Space_GetInfo space with
  | Some (sphere.Space_Discrete d) =>
      SpaceShape space = Ok [1]
      ∧ PotentialsShape space = Ok [sphere.DiscreteSpace_N d]
  | Some (sphere.Space_MultiDiscrete m) =>
      SpaceShape space = Ok [len (sphere.MultiDiscreteSpace_DiscreteSpaces m)]
      ∧ PotentialsShape space =
          match sphere.MultiDiscreteSpace_DiscreteSpaces m with
          | [] => Exit "space had no shape: %v"
          | n :: ns => Ok (n :: ns)
          end
  | Some (sphere.Space_Box _) | Some (sphere.Space_StructSpace _) | None =>
      PotentialsShape space = SpaceShape space
  end.
Proof.
  unfold SpaceShape, PotentialsShape.
  destruct (sphere.Space_GetInfo space) as [[b|d|m|s]|]; simpl; try reflexivity.
  - split; reflexivity.
  - split; [reflexivity|].
    rewrite shape_guard, Int32SliceToInt_id.
    destruct (sphere.MultiDiscreteSpace_DiscreteSpaces m); reflexivity.
Qed.

(** C4 as stated fails twice: a box space whose shape is empty
    is a supported variant for which no sequence is returned, and a struct
    space ends the process instead of yielding an error value. *)
Lemma SpaceShape_box_without_shape_exits :
  supported (box_space [] [] []) = true
  ∧ SpaceShape (box_space [] [] []) = Exit "space had no shape: %v"
  ∧ supported struct_space = false
  ∧ SpaceShape struct_space = Exit "struct space not supported"
  ∧ ¬ (∃ shape, SpaceShape (box_space [] [] []) = Ok shape ∧ shape ≠ [])
  ∧ ¬ (∃ err, SpaceShape struct_space = Err err).
Proof.
  repeat split; try reflexivity.
  - intros [shape [H _]]. discriminate H.
  - intros [err H]. discriminate H.
Qed.

(** C4, amended: [SpaceShape] never returns an empty sequence and never
    returns an error value.  A discrete space gives [1], a multi-discrete
    space the number of its sub-spaces, a box space its shape when that is
    not empty; a box space with an empty shape, a struct space and an
    unrecognized value end the process through [logger.Fatalf]. *)
Theorem SpaceShape_cases (space : option sphere.Space) :
  SpaceShape space =
    match sphere.Space_GetInfo space with
    | Some (sphere.Space_Box b) =>
        match sphere.BoxSpace_Shape b with
        | [] => Exit "space had no shape: %v"
        | d :: ds => Ok (d :: ds)
        end
    | Some (sphere.Space_Discrete _) => Ok [1]
    | Some (sphere.Space_MultiDiscrete m) =>
        Ok [len (sphere.MultiDiscreteSpace_DiscreteSpaces m)]
    | Some (sphere.Space_StructSpace _) => Exit "struct space not supported"
    | None => Exit "unknown action space type: %v"
    end
  ∧ SpaceShape space ≠ Ok []
  ∧ (∀ err, SpaceShape space ≠ Err err)
  ∧ (∀ msg, SpaceShape space ≠ Panic msg).
Proof.
  split; [|split; [apply SpaceShape_not_empty|]].
  - unfold SpaceShape.
    destruct (sphere.Space_GetInfo space) as [[b|d|m|s]|]; simpl; try reflexivity.
    rewrite shape_guard, Int32SliceToInt_id.
    destruct (sphere.BoxSpace_Shape b); reflexivity.
  - unfold SpaceShape.
    split; intros x;
      (destruct (sphere.Space_GetInfo space) as [[b|d|m|s]|]; simpl; try discriminate;
       rewrite shape_guard; destruct (Int32SliceToInt _); discriminate).
Qed.

(** ** Box spaces as tensors *)

(** The loop that copies the shape, element by element, copies it. *)
Lemma shape_copy (s acc : list Z) :
  fold_left (fun shape i => shape ++ [int i]) s acc = acc ++ s.
Proof.
  revert acc. induction s as [|i s IH]; intros acc; simpl.
  - symmetry. apply app_nil_r.
  - rewrite IH. unfold int. rewrite <- app_assoc. reflexivity.
Qed.

Lemma BoxSpace_of_box {S} (e : Env S) (sp : sphere.BoxSpace) :
  sphere.Space_GetBox (sphere.ObservationSpace (Environment e)) = Some sp →
  Env.BoxSpace e =
    Ok {| High := tensor_New (sphere.BoxSpace_Shape sp) (sphere.BoxSpace_High sp);
          Low := tensor_New (sphere.BoxSpace_Shape sp) (sphere.BoxSpace_Low sp);
          Shape := sphere.BoxSpace_Shape sp |}.
Proof.
  intros H. unfold Env.BoxSpace. rewrite H, shape_copy. reflexivity.
Qed.

(** C8: an environment whose observation space is a box of shape [4], with
    four upper and four lower bounds, gives a [BoxSpace] whose [Shape] is [4]
    and whose [High] and [Low] are the tensors of that shape over the given
    bounds; an environment whose observation space is not a box gives an
    error. *)
Theorem BoxSpace_round_trip {S} (e : Env S) :
  (∀ high low : list float32,
     sphere.ObservationSpace (Environment e) = box_space [4] high low →
     length high = 4%nat → length low = 4%nat →
     Env.BoxSpace e =
       Ok {| High := tensor_New [4] high; Low := tensor_New [4] low; Shape := [4] |})
  ∧ (sphere.Space_GetBox (sphere.ObservationSpace (Environment e)) = None →
     ∃ err, Env.BoxSpace e = Err err).
Proof.
  split.
  - intros high low Hspace _ _.
    apply (BoxSpace_of_box e {| sphere.BoxSpace_Shape := [4];
                                sphere.BoxSpace_High := high;
                                sphere.BoxSpace_Low := low |}).
    rewrite Hspace. reflexivity.
  - intros Hnone. unfold Env.BoxSpace. rewrite Hnone. eauto.
Qed.

Lemma BoxSpace_round_trip_witness :
  Env.BoxSpace (env_of CartPole (gym two_episodes video_streams) [] None) =
    Ok {| High := tensor_New [4] (map f32 [5; 3; 1; 3]);
          Low := tensor_New [4] (map f32 [-5; -3; -1; -3]);
          Shape := [4] |}
  ∧ ∃ err, Env.BoxSpace (env_of FrozenLake (gym two_episodes video_streams) [] None) = Err err.
Proof.
  split.
  - apply (proj1 (BoxSpace_round_trip (env_of CartPole (gym two_episodes video_streams) [] None)));
      reflexivity.
  - apply (proj2 (BoxSpace_round_trip (env_of FrozenLake (gym two_episodes video_streams) [] None)));
      reflexivity.
Defined.

(** ** Running methods: how a sequence of calls ends *)

Lemma bind_Ok {S A B} (m : M S A) (f : A → M S B) (st st' : State S) (b : B) :
  (m ≫= f) st = (Ok b, st') →
  ∃ a st1, m st = (Ok a, st1) ∧ f a st1 = (Ok b, st').
Proof.
  unfold mbind, M_bind. destruct (m st) as [[a|e|msg|msg] st1]; intros H;
    try discriminate H.
  eauto.
Qed.

Lemma this_Ok {S} (st st' : State S) (e : Env S) :
  this st = (Ok e, st') → e = recv st ∧ st' = st.
Proof. unfold this. intros [= <- <-]. split; reflexivity. Qed.

Lemma rpc_Ok {S A} (call : S → (A + error) * S) (st st' : State S) (a : A) :
  rpc call st = (Ok a, st') →
  call (remote st) = (inl a, remote st') ∧ recv st' = recv st ∧ disk st' = disk st.
Proof.
  unfold rpc. destruct (call (remote st)) as [[a'|err] s']; intros [= <- <-]; simpl.
  repeat split.
Qed.

Lemma sys_Ok {S A} (call : os.FileSystem → (A + error) * os.FileSystem)
    (st st' : State S) (a : A) :
  sys call st = (Ok a, st') →
  call (disk st) = (inl a, disk st') ∧ recv st' = recv st ∧ remote st' = remote st.
Proof.
  unfold sys. destruct (call (disk st)) as [[a'|err] fs']; intros [= <- <-]; simpl.
  repeat split.
Qed.

(** ** Step *)

(** C7: a [Step] that succeeds returns the action it was given, the reward
    and the done flag of the remote response, and the remote observation,
    passed through the normalizer when there is one. *)
Theorem Step_outcome {S} (value : Z) (st st' : State S) (o : Outcome) :
  Env.Step value st = (Ok o, st') →
  ∃ resp,
    sphere.StepEnv (Client (recv st))
      {| sphere.StepEnvRequest_Id := sphere.Id (Environment (recv st));
         sphere.StepEnvRequest_Action := int32 value |} (remote st)
    = (inl resp, remote st')
    ∧ Action o = value
    ∧ Reward o = sphere.StepEnvResponse_Reward resp
    ∧ Done o = sphere.StepEnvResponse_Done resp
    ∧ Observation o =
        match Normalizer (recv st) with
        | Some n => Normalizer.Norm n (sphere.Tensor_Dense (sphere.StepEnvResponse_Observation resp))
        | None => sphere.Tensor_Dense (sphere.StepEnvResponse_Observation resp)
        end.
Proof.
  unfold Env.Step. intros H.
  apply bind_Ok in H as (e & st1 & He & H).
  apply this_Ok in He as [-> ->].
  apply bind_Ok in H as (resp & st2 & Hresp & H).
  apply rpc_Ok in Hresp as (Hcall & _ & _).
  injection H as <- <-.
  exists resp. simpl. repeat split. exact Hcall.
Qed.

Lemma Step_outcome_witness :
  ∃ resp,
    sphere.StepEnv (gym two_episodes video_streams)
      {| sphere.StepEnvRequest_Id := "CartPole-v1-0";
         sphere.StepEnvRequest_Action := int32 1 |} O
    = (inl resp, 1%nat)
    ∧ 1 = 1
    ∧ f32 1 = sphere.StepEnvResponse_Reward resp
    ∧ false = sphere.StepEnvResponse_Done resp
    ∧ Normalizer.Norm doubling (sphere.Tensor_Dense (obs [1; 2; 3; 4])) =
        Normalizer.Norm doubling (sphere.Tensor_Dense (sphere.StepEnvResponse_Observation resp)).
Proof.
  exact (Step_outcome 1
           (start (env_of CartPole (gym two_episodes video_streams) [] (Some doubling)) ∅)
           {| recv := env_of CartPole (gym two_episodes video_streams) [] (Some doubling);
              remote := 1%nat;
              disk := sound_disk ∅ |}
           {| Observation := Normalizer.Norm doubling (sphere.Tensor_Dense (obs [1; 2; 3; 4]));
              Action := 1;
              Reward := f32 1;
              Done := false |}
           eq_refl).
Defined.

(** ** Reset *)

(** What [Reset] returns when it succeeds: the tensor [t] built from the
    response, as the normalizer left it, and never the tensor the normalizer
    returned. *)
Lemma Reset_returns_t {S} (st st' : State S) (t : Dense) :
  Env.Reset st = (Ok t, st') →
  ∃ resp,
    sphere.ResetEnv (Client (recv st))
      {| sphere.ResetEnvRequest_Id := sphere.Id (Environment (recv st)) |} (remote st)
    = (inl resp, remote st')
    ∧ t = match Normalizer (recv st) with
          | Some n => Normalizer.Norm_arg n
                        (sphere.Tensor_Dense (sphere.ResetEnvResponse_Observation resp))
          | None => sphere.Tensor_Dense (sphere.ResetEnvResponse_Observation resp)
          end.
Proof.
  unfold Env.Reset. intros H.
  apply bind_Ok in H as (e & st1 & He & H).
  apply this_Ok in He as [-> ->].
  apply bind_Ok in H as (resp & st2 & Hresp & H).
  apply rpc_Ok in Hresp as (Hcall & _ & _).
  exists resp.
  destruct (Normalizer (recv st)); injection H as <- <-; split; done.
Qed.

(** C1, on the code: with a normalizer that doubles every entry and leaves
    its argument alone, and a remote that answers the observation
    (1, 2, 3, 4), [Reset] succeeds and returns (1, 2, 3, 4), which is not the
    normalized observation (2, 4, 6, 8). *)
Theorem Reset_ignores_normalizer :
  let e := env_of CartPole (gym two_episodes video_streams) [] (Some doubling) in
  let raw := sphere.Tensor_Dense (sphere.ResetEnvResponse_Observation reset_resp) in
  (Env.Reset (start e ∅)).1 = Ok raw
  ∧ Dense_Data raw = map f32 [1; 2; 3; 4]
  ∧ Dense_Data (Normalizer.Norm doubling raw) = map f32 [2; 4; 6; 8]
  ∧ (Env.Reset (start e ∅)).1 ≠ Ok (Normalizer.Norm doubling raw).
Proof.
  repeat split. vm_compute. discriminate.
Qed.

(** ** Results *)

Definition rewards (episodes : list (Z * sphere.EpisodeResult)) : list float32 :=
  map (fun res => sphere.EpisodeResult_Reward res.2) episodes.

(** The sum of the rewards, added one by one from zero in the order of the
    loop, divided by their number. *)
Definition mean_reward (episodes : list (Z * sphere.EpisodeResult)) : float32 :=
  float32_div (fold_left float32_add (rewards episodes) float32_zero)
              (float32_of_int (len episodes)).

Lemma fold_rewards (episodes : list (Z * sphere.EpisodeResult)) (acc : float32) :
  fold_left (fun cumulative res => float32_add cumulative (sphere.EpisodeResult_Reward res.2))
            episodes acc
  = fold_left float32_add (rewards episodes) acc.
Proof.
  revert acc. induction episodes as [|res episodes IH]; intros acc; simpl; [reflexivity|].
  apply IH.
Qed.

Lemma Results_Ok {S} (st st' : State S) (r : Results) :
  Env.Results st = (Ok r, st') →
  ∃ resp,
    sphere.Results (Client (recv st))
      {| sphere.ResultsRequest_Id := sphere.Id (Environment (recv st)) |} (remote st)
    = (inl resp, remote st')
    ∧ Episodes r = sphere.ResultsResponse_EpisodeResults resp
    ∧ Videos r = sphere.ResultsResponse_Videos resp
    ∧ AverageReward r = mean_reward (sphere.ResultsResponse_EpisodeResults resp)
    ∧ recv st' = recv st ∧ disk st' = disk st.
Proof.
  unfold Env.Results. intros H.
  apply bind_Ok in H as (e & st1 & He & H).
  apply this_Ok in He as [-> ->].
  apply bind_Ok in H as (resp & st2 & Hresp & H).
  apply rpc_Ok in Hresp as (Hcall & Hrecv & Hdisk).
  injection H as <- <-.
  exists resp. simpl. rewrite fold_rewards. repeat split; assumption.
Qed.

(** With no episode the mean is 0/0, which is not a number. *)
Lemma mean_reward_nil : mean_reward [] = S754_nan.
Proof. reflexivity. Qed.

Lemma Results_without_episodes {S} (st st' : State S) (r : Results) :
  Env.Results st = (Ok r, st') → Episodes r = [] → AverageReward r = S754_nan.
Proof.
  intros H Hnil. apply Results_Ok in H as (resp & _ & Hep & _ & Havg & _).
  rewrite Havg, <- Hep, Hnil. apply mean_reward_nil.
Qed.

(** C2, on the code: when the remote reports no episode, [Results] succeeds
    (no error is signalled) and the [AverageReward] it returns is NaN, not
    zero. *)
Theorem Results_of_no_episodes_is_NaN :
  (Env.Results (start (env_of CartPole (gym no_episodes video_streams) [] None) ∅)).1
  = Ok {| Episodes := []; Videos := []; AverageReward := S754_nan |}
  ∧ is_nan S754_nan = true
  ∧ S754_nan ≠ float32_zero.
Proof. repeat split. discriminate. Qed.

(** ** Methods and the receiver *)

Lemma same_failure_failed {A B} (r : result A) (r' : result B) :
  same_failure r r' → failed r ∧ failed r'.
Proof. destruct r, r'; simpl; intros H; try contradiction; split; exact I. Qed.

Lemma bind_cases {S A B} (m : M S A) (f : A → M S B) (st st' : State S) (r : result B) :
  (m ≫= f) st = (r, st') →
  (∃ a st1, m st = (Ok a, st1) ∧ f a st1 = (r, st'))
  ∨ (∃ r0, m st = (r0, st') ∧ same_failure r0 r).
Proof.
  unfold mbind, M_bind. destruct (m st) as [[a|e|msg|msg] st1] eqn:Hm; intros H.
  - left. eauto.
  - right. injection H as <- <-. eexists. split; reflexivity.
  - right. injection H as <- <-. eexists. split; reflexivity.
  - right. injection H as <- <-. eexists. split; reflexivity.
Qed.

Lemma keeps_ret {S A} (a : A) : keeps_recv (mret a : M S A).
Proof. intros st r st' [= <- <-]. reflexivity. Qed.

Lemma keeps_bind {S A B} (m : M S A) (f : A → M S B) :
  keeps_recv m → (∀ a, keeps_recv (f a)) → keeps_recv (m ≫= f).
Proof.
  intros Hm Hf st r st' H.
  apply bind_cases in H as [(a & st1 & H1 & H2) | (r0 & H1 & _)].
  - rewrite (Hf _ _ _ _ H2). exact (Hm _ _ _ H1).
  - exact (Hm _ _ _ H1).
Qed.

Lemma keeps_this {S} : keeps_recv (@this S).
Proof. intros st r st' [= <- <-]. reflexivity. Qed.

Lemma keeps_raise {S A} (err : error) : keeps_recv (raise err : M S A).
Proof. intros st r st' [= <- <-]. reflexivity. Qed.

Lemma keeps_rpc {S A} (call : S → (A + error) * S) : keeps_recv (rpc call).
Proof.
  intros st r st'. unfold rpc.
  destruct (call (remote st)) as [[a|err] s']; intros [= <- <-]; reflexivity.
Qed.

Lemma keeps_sys {S A} (call : os.FileSystem → (A + error) * os.FileSystem) :
  keeps_recv (@sys S A call).
Proof.
  intros st r st'. unfold sys.
  destruct (call (disk st)) as [[a|err] fs']; intros [= <- <-]; reflexivity.
Qed.

Lemma keeps_or_Fatal {S A} (m : M S A) : keeps_recv m → keeps_recv (or_Fatal m).
Proof.
  intros Hm st r st'. unfold or_Fatal.
  destruct (m st) as [[a|e|msg|msg] st1] eqn:H; intros [= <- <-]; exact (Hm _ _ _ H).
Qed.

Create HintDb keeps discriminated.
#[local] Hint Resolve keeps_ret keeps_this keeps_raise keeps_rpc keeps_sys keeps_or_Fatal : keeps.
#[local] Hint Extern 2 (keeps_recv (_ ≫= _)) => apply keeps_bind; [|intros ?] : keeps.
#[local] Hint Extern 5 (keeps_recv (match ?x with _ => _ end)) => destruct x : keeps.

Lemma keeps_Step {S} (value : Z) : keeps_recv (@Env.Step S value).
Proof. unfold Env.Step. auto 10 with keeps. Qed.

Lemma keeps_Reset {S} : keeps_recv (@Env.Reset S).
Proof. unfold Env.Reset. auto 10 with keeps. Qed.

Lemma keeps_Results {S} : keeps_recv (@Env.Results S).
Proof. unfold Env.Results. auto 10 with keeps. Qed.

Lemma keeps_recv_loop {S} (f : os.File) (msgs : list sphere.GetVideoResponse)
    (stream_end : error) (CloseSend : option error) :
  keeps_recv (@Env.recv_loop S f msgs stream_end CloseSend).
Proof. induction msgs as [|resp msgs IH]; simpl; auto 10 with keeps. Qed.

Lemma keeps_videos_loop {S} (filepath_Clean : string → string) (path : string)
    (videos : list (Z * sphere.Video)) (videoPaths : list string) :
  keeps_recv (@Env.videos_loop S filepath_Clean path videos videoPaths).
Proof.
  revert videoPaths. induction videos as [|[k video] videos IH]; intros videoPaths; simpl.
  - auto with keeps.
  - pose proof (@keeps_recv_loop S). auto 10 with keeps.
Qed.

Lemma keeps_clean_loop {S} (videoPaths : list string) :
  keeps_recv (@Env.clean_loop S videoPaths).
Proof. induction videoPaths as [|p ps IH]; simpl; auto 10 with keeps. Qed.

Lemma keeps_play_loop {S} (videoPaths : list string) :
  keeps_recv (@Env.play_loop S videoPaths).
Proof. induction videoPaths as [|p ps IH]; simpl; auto 10 with keeps. Qed.

Lemma keeps_Clean {S} : keeps_recv (@Env.Clean S).
Proof. unfold Env.Clean. pose proof (@keeps_clean_loop S). auto with keeps. Qed.

Lemma keeps_PlayAll {S} : keeps_recv (@Env.PlayAll S).
Proof.
  unfold Env.PlayAll.
  pose proof (@keeps_play_loop S). pose proof (@keeps_Clean S). auto with keeps.
Qed.

(** ** Videos *)

Lemma Create_Ok (name : string) (fs fs' : os.FileSystem) (f : os.File) :
  os.Create name fs = (inl f, fs') →
  f = name ∧ os.files fs' = <[name := []]> (os.files fs).
Proof.
  unfold os.Create. destruct (os.Create_err fs name); intros [= <- <-].
  split; reflexivity.
Qed.

Lemma Write_Ok (f : os.File) (b : list Byte.byte) (fs fs' : os.FileSystem) (u : unit) :
  os.Write f b fs = (inl u, fs') →
  os.files fs' = <[f := default [] (os.files fs !! f) ++ b]> (os.files fs).
Proof.
  unfold os.Write. destruct (os.Write_err fs f _ b); intros H; [discriminate H|]; injection H as _ <-. reflexivity.
Qed.

(** A receive loop that ends well has seen a clean end of stream and has
    put every chunk, in order, after what the file held. *)
Lemma recv_loop_Ok {S} (f : os.File) (msgs : list sphere.GetVideoResponse)
    (stream_end : error) (CloseSend : option error) (content : list Byte.byte)
    (st st' : State S) (u : unit) :
  Env.recv_loop f msgs stream_end CloseSend st = (Ok u, st') →
  os.files (disk st) !! f = Some content →
  stream_end = io_EOF ∧ CloseSend = None
  ∧ remote st' = remote st
  ∧ os.files (disk st') =
      <[f := content ++ concat (map sphere.GetVideoResponse_Chunk msgs)]> (os.files (disk st)).
Proof.
  revert content st. induction msgs as [|resp msgs IH]; intros content st H Hf; simpl in H.
  - destruct stream_end; try discriminate H.
    destruct CloseSend; try discriminate H.
    injection H as _ <-. repeat split; try reflexivity.
    simpl. rewrite app_nil_r. symmetry. apply insert_id. exact Hf.
  - apply bind_Ok in H as (u1 & st1 & Hw & H).
    apply sys_Ok in Hw as (Hw & _ & Hremote).
    apply Write_Ok in Hw. rewrite Hf in Hw. simpl in Hw.
    apply (IH (content ++ sphere.GetVideoResponse_Chunk resp)) in H
      as (-> & -> & Hremote' & Hfiles).
    + repeat split; try reflexivity; try congruence.
      rewrite Hfiles, Hw, insert_insert_eq. simpl. rewrite app_assoc. reflexivity.
    + rewrite Hw. apply lookup_insert_eq.
Qed.

Lemma videos_loop_Ok {S} (filepath_Clean : string → string) (path : string)
    (videos : list (Z * sphere.Video)) (acc videoPaths : list string) (st st' : State S) :
  Env.videos_loop filepath_Clean path videos acc st = (Ok videoPaths, st') →
  let id := sphere.Id (Environment (recv st)) in
  let paths := map (fun v => video_path filepath_Clean path id (sphere.Video_EpisodeId v.2)) videos in
  videoPaths = acc ++ paths
  ∧ ∃ streams,
      downloads (Client (recv st)) id videos streams (remote st) (remote st')
      ∧ os.files (disk st') = written paths streams (os.files (disk st)).
Proof.
  revert acc st. induction videos as [|[k video] videos IH]; intros acc st H; simpl in H.
  - injection H as <- <-. simpl. split; [symmetry; apply app_nil_r|].
    exists []. split; reflexivity.
  - apply bind_Ok in H as (e & st0 & He & H). apply this_Ok in He as [-> ->].
    apply bind_Ok in H as (stream & st1 & Hget & H).
    apply rpc_Ok in Hget as (Hget & Hrecv1 & Hdisk1).
    apply bind_Ok in H as (f & st2 & Hcreate & H).
    apply sys_Ok in Hcreate as (Hcreate & Hrecv2 & Hremote2).
    apply Create_Ok in Hcreate as [-> Hfiles2].
    apply bind_Ok in H as (u & st3 & Hloop & H).
    pose proof (keeps_recv_loop _ _ _ _ _ _ _ Hloop) as Hrecv3.
    apply (recv_loop_Ok _ _ _ _ []) in Hloop as (Hend & Hclose & Hremote3 & Hfiles3);
      [|rewrite Hfiles2; apply lookup_insert_eq].
    apply IH in H as (-> & streams & Hdl & Hfiles).
    rewrite Hrecv3, Hrecv2, Hrecv1 in *.
    simpl. split; [rewrite <- app_assoc; reflexivity|].
    exists (stream :: streams). split.
    + simpl. exists (remote st1). rewrite Hremote3, Hremote2 in Hdl. auto.
    + rewrite Hfiles. unfold written. simpl. f_equal.
      rewrite Hfiles3, Hfiles2, insert_insert_eq, Hdisk1. reflexivity.
Qed.

(** C5: [Videos] assigns [VideoPaths] once, after the last download: when it
    returns paths, the field holds exactly those paths (and nothing else of
    the receiver has changed); when it ends in any other way, at whatever
    point, the receiver, and with it [VideoPaths], is as it was. *)
Theorem Videos_assigns_VideoPaths {S} (filepath_Clean : string → string) (path : string)
    (st st' : State S) (r : result (list string)) :
  Env.Videos filepath_Clean path st = (r, st') →
  match r with
  | Ok videoPaths =>
      VideoPaths (recv st') = videoPaths
      ∧ Environment (recv st') = Environment (recv st)
      ∧ Client (recv st') = Client (recv st)
      ∧ Normalizer (recv st') = Normalizer (recv st)
  | _ => recv st' = recv st
  end.
Proof.
  unfold Env.Videos. intros H.
  apply bind_cases in H as [(e & st0 & He & H) | (r0 & He & Hr0)];
    [apply this_Ok in He as [-> ->] | injection He as <- _; destruct Hr0].
  apply bind_cases in H as [(results & st1 & Hres & H) | (r0 & Hres & Hr)].
  2: { apply keeps_Results in Hres. apply same_failure_failed in Hr as [_ Hr].
       destruct r; [destruct Hr | exact Hres ..]. }
  apply keeps_Results in Hres.
  apply bind_cases in H as [(vps & st2 & Hloop & H) | (r0 & Hloop & Hr)].
  2: { apply keeps_videos_loop in Hloop. apply same_failure_failed in Hr as [_ Hr].
       destruct r; [destruct Hr | congruence ..]. }
  apply keeps_videos_loop in Hloop.
  injection H as <- <-. simpl. rewrite Hloop, Hres. repeat split.
Qed.

Lemma Videos_assigns_VideoPaths_witness :
  (* every download completes: the field receives the two paths *)
  VideoPaths (recv (Env.Videos no_cleaning "/tmp/sphere" recording).2)
  = ["/tmp/sphere/CartPole-v1-0-episode0.mp4"; "/tmp/sphere/CartPole-v1-0-episode1.mp4"]
  (* the second stream breaks: the field keeps what it held *)
  ∧ VideoPaths (recv (Env.Videos no_cleaning "/tmp/sphere" recording_broken).2)
  = ["old.mp4"].
Proof.
  split.
  - refine (proj1 (Videos_assigns_VideoPaths no_cleaning "/tmp/sphere" recording
                     (Env.Videos no_cleaning "/tmp/sphere" recording).2
                     (Ok ["/tmp/sphere/CartPole-v1-0-episode0.mp4";
                          "/tmp/sphere/CartPole-v1-0-episode1.mp4"]) _)).
    vm_compute. reflexivity.
  - refine (f_equal VideoPaths
              (Videos_assigns_VideoPaths no_cleaning "/tmp/sphere" recording_broken
                 (Env.Videos no_cleaning "/tmp/sphere" recording_broken).2
                 (Err (external "rpc error: code = Unavailable")) _)).
    vm_compute. reflexivity.
Defined.

Lemma downloads_length {S} (client : sphere.EnvironmentAPIClient S) (id : string)
    (videos : list (Z * sphere.Video)) (streams : list sphere.EnvironmentAPI_GetVideoClient)
    (s s' : S) :
  downloads client id videos streams s s' → length streams = length videos.
Proof.
  revert streams s. induction videos as [|v videos IH]; intros [|stream streams] s H;
    simpl in *; try contradiction; [reflexivity|].
  destruct H as (s1 & _ & _ & _ & H). f_equal. exact (IH _ _ H).
Qed.

Lemma written_other (paths : list string) (streams : list sphere.EnvironmentAPI_GetVideoClient)
    (m : gmap string (list Byte.byte)) (p : string) :
  p ∉ paths → written paths streams m !! p = m !! p.
Proof.
  revert streams m. induction paths as [|q paths IH]; intros [|stream streams] m Hp;
    try reflexivity.
  apply not_elem_of_cons in Hp as [Hne Hp].
  unfold written in *. simpl. rewrite IH by exact Hp.
  apply lookup_insert_ne. congruence.
Qed.

Lemma written_lookup (paths : list string) (streams : list sphere.EnvironmentAPI_GetVideoClient)
    (m : gmap string (list Byte.byte)) (i : nat) (p : string)
    (stream : sphere.EnvironmentAPI_GetVideoClient) :
  NoDup paths → paths !! i = Some p → streams !! i = Some stream →
  written paths streams m !! p = Some (stream_bytes stream).
Proof.
  revert streams m i. induction paths as [|q paths IH]; intros [|s0 streams] m i Hnd Hp Hs;
    try discriminate.
  apply NoDup_cons in Hnd as [Hq Hnd].
  destruct i as [|i]; simpl in Hp, Hs.
  - injection Hp as ->. injection Hs as ->.
    unfold written. simpl. fold (written paths streams (<[p := stream_bytes stream]> m)).
    rewrite written_other by exact Hq. apply lookup_insert_eq.
  - unfold written. simpl. apply (IH streams _ i); assumption.
Qed.

(** C9: a [Videos] that succeeds has asked for the results once and, for
    every video reference in turn, has opened its stream, which ended cleanly,
    and has made the bytes of that stream, in the order received, the content
    of the file named after the environment id and the episode id, in [path]
    or, when [path] is empty, in the directory named after the environment id;
    it returns the paths of these files, in that order. *)
Theorem Videos_writes_streams {S} (filepath_Clean : string → string) (path : string)
    (st st' : State S) (videoPaths : list string) :
  Env.Videos filepath_Clean path st = (Ok videoPaths, st') →
  let id := sphere.Id (Environment (recv st)) in
  let dir := if decide (path = "") then "./results/" +:+ id else path in
  ∃ resp s1 streams,
    sphere.Results (Client (recv st)) {| sphere.ResultsRequest_Id := id |} (remote st)
    = (inl resp, s1)
    ∧ videoPaths =
        map (fun v => Env.filepath_Join filepath_Clean dir
                        (id +:+ "-episode" +:+ pretty (sphere.Video_EpisodeId v.2) +:+ ".mp4"))
            (sphere.ResultsResponse_Videos resp)
    ∧ downloads (Client (recv st)) id (sphere.ResultsResponse_Videos resp) streams s1 (remote st')
    ∧ length streams = length videoPaths
    ∧ os.files (disk st') = written videoPaths streams (os.files (disk st))
    ∧ (∀ p, p ∉ videoPaths → os.files (disk st') !! p = os.files (disk st) !! p)
    ∧ (NoDup videoPaths →
       ∀ i p stream, videoPaths !! i = Some p → streams !! i = Some stream →
                     os.files (disk st') !! p = Some (stream_bytes stream)).
Proof.
  intros H id dir. unfold Env.Videos in H.
  apply bind_Ok in H as (e & st0 & He & H). apply this_Ok in He as [-> ->].
  apply bind_Ok in H as (results & st1 & Hres & H).
  apply Results_Ok in Hres as (resp & Hcall & _ & Hvideos & _ & Hrecv1 & Hdisk1).
  apply bind_Ok in H as (vps & st2 & Hloop & H).
  apply videos_loop_Ok in Hloop as (Hvps & streams & Hdl & Hfiles).
  injection H as <- <-. simpl in *.
  rewrite Hrecv1, Hvideos, Hdisk1 in *. fold id in Hvps, Hdl, Hfiles. subst vps.
  exists resp, (remote st1), streams.
  split; [exact Hcall|]. split; [reflexivity|]. split; [exact Hdl|].
  split; [rewrite length_map; exact (downloads_length _ _ _ _ _ _ Hdl)|].
  split; [exact Hfiles|]. split.
  - intros p Hp. rewrite Hfiles. apply written_other. exact Hp.
  - intros Hnd i p stream Hp Hs. rewrite Hfiles. exact (written_lookup _ _ _ i _ _ Hnd Hp Hs).
Qed.

Lemma Videos_writes_streams_witness :
  let st := recording in
  let st' := (Env.Videos no_cleaning "" recording).2 in
  let videoPaths := ["./results/CartPole-v1-0/CartPole-v1-0-episode0.mp4";
                     "./results/CartPole-v1-0/CartPole-v1-0-episode1.mp4"] in
  ∃ resp s1 streams,
    sphere.Results (Client (recv st)) {| sphere.ResultsRequest_Id := "CartPole-v1-0" |} (remote st)
    = (inl resp, s1)
    ∧ videoPaths =
        map (fun v => Env.filepath_Join no_cleaning "./results/CartPole-v1-0"
                        ("CartPole-v1-0" +:+ "-episode"
                           +:+ pretty (sphere.Video_EpisodeId v.2) +:+ ".mp4"))
            (sphere.ResultsResponse_Videos resp)
    ∧ downloads (Client (recv st)) "CartPole-v1-0" (sphere.ResultsResponse_Videos resp)
        streams s1 (remote st')
    ∧ length streams = length videoPaths
    ∧ os.files (disk st') = written videoPaths streams (os.files (disk st))
    ∧ (∀ p, p ∉ videoPaths → os.files (disk st') !! p = os.files (disk st) !! p)
    ∧ (NoDup videoPaths →
       ∀ i p stream, videoPaths !! i = Some p → streams !! i = Some stream →
                     os.files (disk st') !! p = Some (stream_bytes stream)).
Proof.
  refine (Videos_writes_streams no_cleaning "" recording
            (Env.Videos no_cleaning "" recording).2
            ["./results/CartPole-v1-0/CartPole-v1-0-episode0.mp4";
             "./results/CartPole-v1-0/CartPole-v1-0-episode1.mp4"] _).
  vm_compute. reflexivity.
Defined.

(** ** Clean *)

Lemma Remove_Ok (name : string) (fs fs' : os.FileSystem) (u : unit) :
  os.Remove name fs = (inl u, fs') →
  is_Some (os.files fs !! name) ∧ os.files fs' = delete name (os.files fs).
Proof.
  unfold os.Remove. destruct (os.Remove_err fs name); [discriminate|].
  destruct (os.files fs !! name) eqn:Hname; [|discriminate].
  intros H. injection H as _ <-. split; [eauto | reflexivity].
Qed.

(** Removing a path that names no file fails, whatever else the system
    would have said. *)
Lemma Remove_missing (name : string) (fs : os.FileSystem) :
  os.files fs !! name = None → ∃ err, os.Remove name fs = (inr err, fs).
Proof.
  intros Hname. unfold os.Remove.
  destruct (os.Remove_err fs name); [eauto|]. rewrite Hname. eauto.
Qed.

Lemma or_Fatal_Ok {S A} (m : M S A) (st st' : State S) (a : A) :
  or_Fatal m st = (Ok a, st') → m st = (Ok a, st').
Proof.
  unfold or_Fatal. destruct (m st) as [[a'|e|msg|msg] st1]; intros H;
    try discriminate H; exact H.
Qed.

Lemma removed_lookup (paths : list string) (m : gmap string (list Byte.byte)) (p : string) :
  removed paths m !! p = if decide (p ∈ paths) then None else m !! p.
Proof.
  revert m. induction paths as [|q paths IH]; intros m.
  - destruct (decide (p ∈ [])) as [Hin|_]; [inversion Hin | reflexivity].
  - change (removed (q :: paths) m) with (removed paths (delete q m)).
    rewrite IH.
    destruct (decide (p ∈ paths)) as [Hin|Hin], (decide (p ∈ q :: paths)) as [Hin'|Hin'].
    + reflexivity.
    + contradict Hin'. right. exact Hin.
    + apply elem_of_cons in Hin' as [->|Hin']; [apply lookup_delete_eq | contradiction].
    + apply lookup_delete_ne. intros ->. apply Hin'. left.
Qed.

(** A loop of removals that comes to its end has removed every path of the
    list, one after the other: each named a file when its turn came, so
    no path occurs twice. *)
Lemma clean_loop_Ok {S} (videoPaths : list string) (st st' : State S) (u : unit) :
  Env.clean_loop videoPaths st = (Ok u, st') →
  remote st' = remote st
  ∧ os.files (disk st') = removed videoPaths (os.files (disk st))
  ∧ NoDup videoPaths
  ∧ (∀ p, p ∈ videoPaths → is_Some (os.files (disk st) !! p)).
Proof.
  revert st. induction videoPaths as [|p ps IH]; intros st H; simpl in H.
  - injection H as _ <-. repeat split; [constructor | intros p Hp; inversion Hp].
  - apply bind_Ok in H as (u1 & st1 & Hrm & H).
    apply or_Fatal_Ok, sys_Ok in Hrm as (Hrm & _ & Hremote).
    apply Remove_Ok in Hrm as [Hsome Hfiles].
    apply IH in H as (Hremote' & Hfiles' & Hnd & Hall).
    assert (Hp : p ∉ ps).
    { intros Hin. apply Hall in Hin as [x Hx].
      rewrite Hfiles, lookup_delete_eq in Hx. discriminate Hx. }
    repeat split.
    + congruence.
    + rewrite Hfiles', Hfiles. reflexivity.
    + constructor; assumption.
    + intros q [->|Hq]%elem_of_cons; [exact Hsome|].
      apply Hall in Hq as [x Hx]. rewrite Hfiles in Hx.
      apply lookup_delete_Some in Hx as [_ Hx]. eauto.
Qed.

Lemma Remove_Err (name : string) (fs fs' : os.FileSystem) (err : error) :
  os.Remove name fs = (inr err, fs') → fs' = fs.
Proof.
  unfold os.Remove. destruct (os.Remove_err fs name); [intros [= _ <-]; reflexivity|].
  destruct (os.files fs !! name); intros H; [discriminate H|].
  injection H as _ <-. reflexivity.
Qed.

(** How one guarded removal can end. *)
Lemma remove_or_Fatal {S} (p : string) (st st' : State S) (r : result unit) :
  or_Fatal (sys (os.Remove p)) st = (r, st') →
  (r = Ok tt ∧ os.Remove p (disk st) = (inl tt, disk st') ∧ remote st' = remote st)
  ∨ (r = Exit "log.Fatal(err)" ∧ disk st' = disk st).
Proof.
  unfold or_Fatal, sys.
  destruct (os.Remove p (disk st)) as [[[]|err] fs'] eqn:Hrm; intros [= <- <-]; simpl.
  - left. repeat split.
  - right. split; [reflexivity|]. exact (Remove_Err _ _ _ _ Hrm).
Qed.

(** A loop of removals that does not come to its end stops at the first
    path it cannot remove, having removed the paths before it and none
    after it: the paths are taken in the order of the slice. *)
Lemma clean_loop_failed {S} (videoPaths : list string) (st st' : State S) (r : result unit) :
  Env.clean_loop videoPaths st = (r, st') → failed r →
  r = Exit "log.Fatal(err)"
  ∧ ∃ before p after,
      videoPaths = before ++ p :: after
      ∧ os.files (disk st') = removed before (os.files (disk st)).
Proof.
  revert st. induction videoPaths as [|p ps IH]; intros st H Hr; simpl in H.
  - injection H as <- _. destruct Hr.
  - apply bind_cases in H as [(u & st1 & Hrm & H) | (r0 & Hrm & Hr0)].
    + apply remove_or_Fatal in Hrm as [(_ & Hrm & _) | (Hu & _)]; [|discriminate Hu].
      apply Remove_Ok in Hrm as [_ Hfiles].
      apply IH in H as (-> & before & q & after & -> & Hfiles'); [|exact Hr].
      split; [reflexivity|]. exists (p :: before), q, after.
      split; [reflexivity|]. rewrite Hfiles', Hfiles. reflexivity.
    + apply remove_or_Fatal in Hrm as [(-> & _) | (-> & Hdisk)]; [destruct Hr0|].
      destruct r; try contradiction. simpl in Hr0. subst msg.
      split; [reflexivity|]. exists [], p, ps. split; [reflexivity|].
      rewrite Hdisk. reflexivity.
Qed.

(** A loop of removals whose first path names no file ends the process at
    once. *)
Lemma clean_loop_stale {S} (p : string) (ps : list string) (st : State S) :
  os.files (disk st) !! p = None →
  (Env.clean_loop (p :: ps) st).1 = Exit "log.Fatal(err)".
Proof.
  intros Hp. apply Remove_missing in Hp as [err Hrm].
  simpl. unfold mbind, M_bind, or_Fatal, sys. rewrite Hrm. reflexivity.
Qed.

(** Playing the videos changes nothing; it ends the process when a video
    cannot be opened. *)
Lemma play_loop_cases {S} (videoPaths : list string) (st : State S) :
  Env.play_loop videoPaths st = (Ok tt, st)
  ∨ (Env.play_loop videoPaths st).1 = Exit "log.Fatal(err)".
Proof.
  induction videoPaths as [|p ps IH]; simpl.
  - left. reflexivity.
  - unfold mbind, M_bind, or_Fatal, sys, os.open_Run.
    destruct (os.Run_err (disk st) p).
    + right. reflexivity.
    + destruct st as [e s fs]. exact IH.
Qed.

(** C10: [Clean] never changes [VideoPaths], however it ends.  When it
    returns, it has removed the files listed there, one after the other in
    the order of the slice, and no other file; the field still lists the
    paths just removed, so that, unless the list is empty, a second [Clean]
    and a [PlayAll] find no file at the first path and end the process.  When
    it does not return, it has ended the process at the first path it could
    not remove, after removing the paths listed before that one. *)
Theorem Clean_keeps_VideoPaths {S} (st st' : State S) (r : result unit) :
  Env.Clean st = (r, st') →
  VideoPaths (recv st') = VideoPaths (recv st)
  ∧ (r = Ok tt →
     os.files (disk st') = removed (VideoPaths (recv st)) (os.files (disk st))
     ∧ (∀ p, p ∈ VideoPaths (recv st) →
             is_Some (os.files (disk st) !! p) ∧ os.files (disk st') !! p = None)
     ∧ (∀ p, p ∉ VideoPaths (recv st) → os.files (disk st') !! p = os.files (disk st) !! p)
     ∧ (VideoPaths (recv st') ≠ [] →
        (Env.Clean st').1 = Exit "log.Fatal(err)"
        ∧ (Env.PlayAll st').1 = Exit "log.Fatal(err)"))
  ∧ (r ≠ Ok tt →
     r = Exit "log.Fatal(err)"
     ∧ ∃ before p after,
         VideoPaths (recv st) = before ++ p :: after
         ∧ os.files (disk st') = removed before (os.files (disk st))).
Proof.
  intros H. pose proof (keeps_Clean _ _ _ H) as Hrecv.
  split; [rewrite Hrecv; reflexivity|].
  unfold Env.Clean in H. change ((this ≫= fun e => Env.clean_loop (VideoPaths e)) st = (r, st')) in H.
  unfold mbind, M_bind, this in H.
  split.
  - intros ->. apply clean_loop_Ok in H as (_ & Hfiles & _ & Hall).
    assert (Hgone : ∀ p, p ∈ VideoPaths (recv st) → os.files (disk st') !! p = None).
    { intros p Hp. rewrite Hfiles, removed_lookup, decide_True by exact Hp. reflexivity. }
    split; [exact Hfiles|]. split; [|split].
    + intros p Hp. split; [exact (Hall p Hp) | exact (Hgone p Hp)].
    + intros p Hp. rewrite Hfiles, removed_lookup, decide_False by exact Hp. reflexivity.
    + rewrite Hrecv. intros Hne.
      destruct (VideoPaths (recv st)) as [|p ps] eqn:Hpaths; [contradiction|].
      assert (Hstale : (Env.clean_loop (p :: ps) st').1 = Exit "log.Fatal(err)").
      { apply clean_loop_stale, Hgone. left. }
      assert (Hclean : (Env.Clean st').1 = Exit "log.Fatal(err)").
      { unfold Env.Clean, mbind, M_bind, this. rewrite Hrecv, Hpaths. exact Hstale. }
      split; [exact Hclean|].
      unfold Env.PlayAll, mbind, M_bind, this. rewrite Hrecv, Hpaths.
      destruct (play_loop_cases (p :: ps) st') as [Hplay|Hplay].
      * rewrite Hplay. exact Hclean.
      * destruct (Env.play_loop (p :: ps) st') as [[u|e|msg|msg] st1];
          simpl in Hplay; try discriminate Hplay. exact Hplay.
  - intros Hr. apply clean_loop_failed in H; [exact H|].
    destruct r as [[]| | |]; [contradiction | exact I ..].
Qed.

Lemma Clean_keeps_VideoPaths_witness :
  VideoPaths (recv (Env.Clean recorded).2) = VideoPaths (recv recorded)
  ∧ os.files (disk (Env.Clean recorded).2)
    = removed (VideoPaths (recv recorded)) (os.files (disk recorded))
  ∧ (Env.Clean (Env.Clean recorded).2).1 = Exit "log.Fatal(err)"
  ∧ (Env.PlayAll (Env.Clean recorded).2).1 = Exit "log.Fatal(err)".
Proof.
  assert (H : Env.Clean recorded = (Ok tt, (Env.Clean recorded).2))
    by (vm_compute; reflexivity).
  destruct (Clean_keeps_VideoPaths recorded (Env.Clean recorded).2 (Ok tt) H)
    as (Hpaths & Hok & _).
  destruct (Hok eq_refl) as (Hfiles & _ & _ & Hstale).
  split; [exact Hpaths|]. split; [exact Hfiles|].
  apply Hstale. vm_compute. discriminate.
Defined.

(** ** The retry loop of NewLocalServer *)

Lemma opened_S (dial : nat → string → option error) (address : string) (from count : nat) :
  opened dial address from (S count) =
    (if decide (dial from address = None) then [from] else [])
    ++ opened dial address (S from) count.
Proof.
  unfold opened. change (seq from (S count)) with (from :: seq (S from) count).
  rewrite filter_cons.
  destruct (decide (dial from address = None)); reflexivity.
Qed.

Lemma opened_1 (dial : nat → string → option error) (address : string) (from : nat) :
  opened dial address from 1 = if decide (dial from address = None) then [from] else [].
Proof.
  rewrite opened_S. unfold opened. simpl. rewrite filter_nil. apply app_nil_r.
Qed.

(** One attempt: it dials once; a dial that succeeds leaves its connection
    open, whatever [Info] answers afterwards. *)
Lemma attempt_spec (resource : dockertest.Resource) (config : ServerConfig)
    (h h' : Host) (r : result unit) :
  attempt resource config h = (r, h') →
  NewPool_err h' = NewPool_err h ∧ Run_res h' = Run_res h
  ∧ Dial_err h' = Dial_err h ∧ Info_res h' = Info_res h
  ∧ dials h' = S (dials h)
  ∧ open_conns h' = open_conns h ++ opened (Dial_err h) (address_of resource config) (dials h) 1
  ∧ match Dial_err h (dials h) (address_of resource config) with
    | Some err => r = Err err
    | None =>
        r = match Info_res h (dials h) with
            | (None, _) => Panic "invalid memory address or nil pointer dereference"
            | (Some _, Some err) => Err err
            | (Some _, None) => Ok tt
            end
    end.
Proof.
  unfold attempt, address_of, mbind, H_bind, grpc_Dial, set_sphereClient, client_Info,
    H_panic, H_fail, mret, H_ret.
  rewrite opened_1.
  destruct (Dial_err h (dials h) _) as [err|] eqn:Hdial; simpl.
  - intros [= <- <-]. simpl. rewrite app_nil_r. repeat split.
  - destruct (Info_res h (dials h)) as [[resp|] [err|]]; simpl;
      intros [= <- <-]; simpl; repeat split.
Qed.

(** The loop: it makes at least one and at most [budget + 1] attempts, closes
    nothing, and gives up with an error only when the budget is used up. *)
Lemma Retry_attempt_spec (budget : nat) (resource : dockertest.Resource) (config : ServerConfig)
    (h h' : Host) (r : result unit) :
  Retry budget (attempt resource config) h = (r, h') →
  NewPool_err h' = NewPool_err h ∧ Run_res h' = Run_res h
  ∧ Dial_err h' = Dial_err h ∧ Info_res h' = Info_res h
  ∧ (dials h < dials h' ≤ dials h + S budget)%nat
  ∧ open_conns h' =
      open_conns h
      ++ opened (Dial_err h) (address_of resource config) (dials h) (dials h' - dials h)
  ∧ (∀ err, r = Err err → dials h' = (dials h + S budget)%nat).
Proof.
  revert h. induction budget as [|budget IH]; intros h; simpl;
    destruct (attempt resource config h) as [[[]|err|msg|msg] h1] eqn:Hat;
    apply attempt_spec in Hat as (Hpool & Hrun & Hdial & Hinfo & Hdials & Hopen & _).
  1-4, 5, 7-8:
    intros [= <- <-]; rewrite Hdials;
    replace (S (dials h) - dials h)%nat with 1%nat by lia;
    repeat split; try assumption; try lia; try discriminate.
  intros H. apply IH in H as (Hpool' & Hrun' & Hdial' & Hinfo' & Hdials' & Hopen' & Herr).
  rewrite Hdials in *.
  repeat split; try congruence; try lia.
  - rewrite Hopen', Hopen, Hdial, <- app_assoc. f_equal.
    replace (dials h' - dials h)%nat with (S (dials h' - S (dials h))) by lia.
    rewrite opened_1, (opened_S _ _ (dials h) (dials h' - S (dials h))). reflexivity.
  - intros e He. rewrite (Herr e He). lia.
Qed.


(** C6, on the code: docker has started the container, the dial goes
    through, and the service is not up yet, so that the stub answers [Info]
    with a nil response and the error.  The attempt then reads the name of the
    server off the nil response, before it looks at the error: the call
    panics.  There is no second attempt, although the budget leaves room for
    two more; no error is returned; and the connection the attempt opened is
    still open. *)
Theorem NewLocalServer_panics_when_Info_fails :
  let h := host dial_ok not_ready in
  (NewLocalServer 2 GymServerConfig h).1
  = Panic "invalid memory address or nil pointer dereference"
  ∧ dials (NewLocalServer 2 GymServerConfig h).2 = 1%nat
  ∧ open_conns h = []
  ∧ open_conns (NewLocalServer 2 GymServerConfig h).2 = [0%nat]
  ∧ ∀ err, (NewLocalServer 2 GymServerConfig h).1 ≠ Err err.
Proof.
  repeat split. intros err. discriminate.
Qed.

(** * Further properties *)

(** ** NewLocalServer: which attempt decides *)

(** One attempt and the variable [sphereClient]: a dial that succeeds puts
    the stub over the new connection there before [Info] is called. *)
Lemma attempt_sphereClient (resource : dockertest.Resource) (config : ServerConfig)
    (h h' : Host) (r : result unit) :
  attempt resource config h = (r, h') →
  sphereClient h' =
    match Dial_err h (dials h) (address_of resource config) with
    | Some _ => sphereClient h
    | None => Some (dials h)
    end.
Proof.
  unfold attempt, address_of, mbind, H_bind, grpc_Dial, set_sphereClient, client_Info,
    H_panic, H_fail, mret, H_ret.
  destruct (Dial_err h (dials h) _) as [err|]; simpl.
  - intros [= <- <-]. reflexivity.
  - destruct (Info_res h (dials h)) as [[resp|] [err|]]; simpl;
      intros [= <- <-]; reflexivity.
Qed.

Lemma attempt_decided (resource : dockertest.Resource) (config : ServerConfig)
    (h h' : Host) (r : result unit) :
  attempt resource config h = (r, h') →
  decided_by h (address_of resource config) (dials h) (sphereClient h') r.
Proof.
  intros Hat. pose proof (attempt_sphereClient _ _ _ _ _ Hat) as Hclient.
  apply attempt_spec in Hat as (_ & _ & _ & _ & _ & _ & Hr).
  unfold decided_by, attempt_succeeds.
  destruct (Dial_err h (dials h) (address_of resource config)) as [e|] eqn:Hde.
  - subst r. left. reflexivity.
  - destruct (Info_res h (dials h)) as [[resp|] [e|]] eqn:Hi; subst r; simpl; eauto 6.
Qed.

(** The loop ends with its last attempt: what that attempt did decides how
    the loop ends. *)
Lemma Retry_decided (budget : nat) (resource : dockertest.Resource) (config : ServerConfig)
    (h h' : Host) (r : result unit) :
  Retry budget (attempt resource config) h = (r, h') →
  decided_by h (address_of resource config) (pred (dials h')) (sphereClient h') r.
Proof.
  revert h. induction budget as [|budget IH]; intros h; simpl;
    destruct (attempt resource config h) as [r1 h1] eqn:Hat;
    pose proof (attempt_decided _ _ _ _ _ Hat) as Hone;
    apply attempt_spec in Hat as (_ & _ & Hdial & Hinfo & Hdials & _ & _).
  - intros H. assert (r = r1 ∧ h' = h1) as [-> ->].
    { destruct r1 as [[]|e|msg|msg]; injection H as <- <-; split; reflexivity. }
    rewrite Hdials. exact Hone.
  - destruct r1 as [[]|e|msg|msg].
    1, 3, 4: intros [= <- <-]; rewrite Hdials; exact Hone.
    intros H. apply IH in H. unfold decided_by, attempt_succeeds in *.
    rewrite Hdial, Hinfo in H. exact H.
Qed.

Lemma opened_snoc (dial : nat → string → option error) (address : string) (from count : nat) :
  dial (from + count)%nat address = None →
  opened dial address from (S count) = opened dial address from count ++ [(from + count)%nat].
Proof.
  intros Hok. unfold opened. rewrite seq_S, filter_app. f_equal.
  rewrite filter_cons, filter_nil, decide_True by exact Hok. reflexivity.
Qed.

(** X1: once docker has started the container, [NewLocalServer] makes at
    least one dial, and its outcome is that of the last attempt it made.  A
    server is returned only when that attempt's dial and [Info] both went
    through; the server's client is then the stub over that last connection,
    which is the last of the open ones.  An error is returned only when the
    budget is used up, and wraps the error of the last attempt.  A panic comes
    from a nil [Info] response on a connection that was opened and stays
    open.  The process is never ended. *)
Theorem NewLocalServer_decided_by_last_attempt (budget : nat) (config : ServerConfig)
    (resource : dockertest.Resource) (h h' : Host) (r : result Server) :
  NewLocalServer budget config h = (r, h') →
  NewPool_err h = None → Run_res h = inl resource →
  let address := address_of resource config in
  let conn := pred (dials h') in
  (dials h < dials h')%nat
  ∧ match r with
    | Ok server =>
        Resource server = resource
        ∧ Server_Client server = Some conn
        ∧ attempt_succeeds h address conn
        ∧ last (open_conns h') = Some conn
    | Err err =>
        ∃ cause,
          err = Errorf_s "Could not connect to docker: %s" cause
          ∧ dials h' = (dials h + S budget)%nat
          ∧ (Dial_err h conn address = Some cause
             ∨ (Dial_err h conn address = None
                ∧ ∃ resp, Info_res h conn = (Some resp, Some cause)))
    | Panic msg =>
        Dial_err h conn address = None
        ∧ (Info_res h conn).1 = None
        ∧ last (open_conns h') = Some conn
    | Exit _ => False
    end.
Proof.
  unfold NewLocalServer, mbind, H_bind, wrap_err, dockertest_NewPool, pool_Run,
    get_sphereClient, mret, H_ret.
  intros H Hpool Hrun. rewrite Hpool, Hrun in H.
  destruct (Retry budget (attempt resource config) h) as [rr h1] eqn:HR.
  assert (Hh : h' = h1) by (destruct rr; injection H as _ <-; reflexivity).
  subst h1. simpl.
  pose proof (Retry_decided _ _ _ _ _ _ HR) as Hlast.
  apply Retry_attempt_spec in HR as (_ & _ & _ & _ & Hdials & Hopen & Herr).
  split; [lia|].
  assert (Hopen_last :
    Dial_err h (pred (dials h')) (address_of resource config) = None →
    last (open_conns h') = Some (pred (dials h'))).
  { intros Hok. rewrite Hopen.
    replace (dials h' - dials h)%nat with (S (pred (dials h') - dials h)) by lia.
    rewrite opened_snoc by (replace (dials h + (pred (dials h') - dials h))%nat
                              with (pred (dials h')) by lia; exact Hok).
    rewrite app_assoc, last_snoc. f_equal. lia. }
  unfold decided_by, attempt_succeeds in Hlast.
  destruct rr as [[]|e|msg|msg].
  - injection H as <-. destruct Hlast as [[Hok Hinfo] Hclient]. simpl.
    repeat split; auto.
  - injection H as <-. exists e. split; [reflexivity|]. split; [exact (Herr e eq_refl) | exact Hlast].
  - destruct Hlast.
  - injection H as <-. destruct Hlast as (_ & Hok & Hnil). auto.
Qed.

Lemma NewLocalServer_decided_by_last_attempt_witness :
  let h := host (dial_refused_until 2) ready in
  let h' := (NewLocalServer 5 GymServerConfig h).2 in
  (dials h < dials h')%nat
  ∧ Resource {| Resource := container; Server_Client := Some 2%nat |} = container
  ∧ Server_Client {| Resource := container; Server_Client := Some 2%nat |}
    = Some (pred (dials h'))
  ∧ attempt_succeeds h (address_of container GymServerConfig) (pred (dials h'))
  ∧ last (open_conns h') = Some (pred (dials h')).
Proof.
  intros h h'.
  assert (H : NewLocalServer 5 GymServerConfig h
              = (Ok {| Resource := container; Server_Client := Some 2%nat |}, h'))
    by (vm_compute; reflexivity).
  exact (NewLocalServer_decided_by_last_attempt 5 GymServerConfig container h h' _
           H eq_refl eq_refl).
Defined.

(** How the loop runs when the first [k] dials fail and the next attempt
    goes through. *)
Lemma Retry_connects (k budget : nat) (resource : dockertest.Resource) (config : ServerConfig)
    (h : Host) :
  (k ≤ budget)%nat →
  (∀ i, (i < k)%nat → Dial_err h (dials h + i)%nat (address_of resource config) ≠ None) →
  attempt_succeeds h (address_of resource config) (dials h + k)%nat →
  ∃ h', Retry budget (attempt resource config) h = (Ok tt, h')
        ∧ dials h' = (dials h + S k)%nat
        ∧ sphereClient h' = Some (dials h + k)%nat
        ∧ open_conns h' = open_conns h ++ [(dials h + k)%nat].
Proof.
  revert budget h. induction k as [|k IH]; intros budget h Hk Hfail Hok;
    destruct (attempt resource config h) as [r1 h1] eqn:Hat;
    pose proof (attempt_sphereClient _ _ _ _ _ Hat) as Hclient;
    pose proof (attempt_spec _ _ _ _ _ Hat) as (_ & _ & Hdial & Hinfo & Hdials & Hopen & Hr);
    rewrite opened_1 in Hopen.
  - rewrite Nat.add_0_r in Hok. destruct Hok as [Hd [resp Hi]].
    rewrite Hd in Hr, Hclient, Hopen. rewrite Hi in Hr. subst r1.
    rewrite decide_True in Hopen by reflexivity.
    exists h1. rewrite Nat.add_0_r.
    split; [destruct budget; simpl; rewrite Hat; reflexivity|].
    split; [lia|]. split; [exact Hclient | exact Hopen].
  - destruct budget as [|budget]; [lia|].
    specialize (Hfail O ltac:(lia)) as Hfirst. rewrite Nat.add_0_r in Hfirst.
    destruct (Dial_err h (dials h) (address_of resource config)) as [e|] eqn:Hd;
      [|contradiction].
    subst r1. rewrite decide_False, app_nil_r in Hopen by discriminate.
    destruct (IH budget h1) as (h' & HR & Hdials' & Hclient' & Hopen').
    + lia.
    + intros i Hi. rewrite Hdial, Hdials.
      replace (S (dials h) + i)%nat with (dials h + S i)%nat by lia.
      apply Hfail. lia.
    + unfold attempt_succeeds. rewrite Hdial, Hinfo, Hdials.
      replace (S (dials h) + k)%nat with (dials h + S k)%nat by lia. exact Hok.
    + exists h'. simpl. rewrite Hat.
      split; [exact HR|]. rewrite Hdials', Hclient', Hopen', Hopen, Hdials.
      split; [lia|]. split; f_equal; [lia | f_equal; lia].
Qed.

(** X2: when docker has started the container, the first [k] dials fail,
    with [k] within the budget, and the next attempt goes through (its dial
    and its [Info] request), [NewLocalServer] returns a server whose client is
    the stub over the connection of that attempt, after exactly [k + 1] dials;
    that connection is the only one it has opened. *)
Theorem NewLocalServer_connects_after (k budget : nat) (config : ServerConfig)
    (resource : dockertest.Resource) (h : Host) :
  NewPool_err h = None → Run_res h = inl resource →
  (k ≤ budget)%nat →
  (∀ i, (i < k)%nat → Dial_err h (dials h + i)%nat (address_of resource config) ≠ None) →
  attempt_succeeds h (address_of resource config) (dials h + k)%nat →
  ∃ h',
    NewLocalServer budget config h
    = (Ok {| Resource := resource; Server_Client := Some (dials h + k)%nat |}, h')
    ∧ dials h' = (dials h + S k)%nat
    ∧ open_conns h' = open_conns h ++ [(dials h + k)%nat].
Proof.
  intros Hpool Hrun Hk Hfail Hok.
  destruct (Retry_connects k budget resource config h Hk Hfail Hok)
    as (h' & HR & Hdials & Hclient & Hopen).
  exists h'. split; [|split; [exact Hdials | exact Hopen]].
  unfold NewLocalServer, mbind, H_bind, wrap_err, dockertest_NewPool, pool_Run,
    get_sphereClient, mret, H_ret.
  rewrite Hpool, Hrun, HR, Hclient. reflexivity.
Qed.

Lemma NewLocalServer_connects_after_witness :
  ∃ h',
    NewLocalServer 5 GymServerConfig (host (dial_refused_until 2) ready)
    = (Ok {| Resource := container; Server_Client := Some 2%nat |}, h')
    ∧ dials h' = 3%nat
    ∧ open_conns h' = [2%nat].
Proof.
  apply (NewLocalServer_connects_after 2 5 GymServerConfig container
           (host (dial_refused_until 2) ready)).
  - reflexivity.
  - reflexivity.
  - lia.
  - intros i Hi. unfold host, dial_refused_until. cbn [Dial_err dials].
    destruct (decide (0 + i < 2)%nat) as [_|Hge]; [discriminate | lia].
  - split; [reflexivity|]. eexists. reflexivity.
Defined.



(** ** Step: the action on the wire *)

Lemma int32_range (v : Z) : -2^31 ≤ int32 v < 2^31.
Proof.
  unfold int32. pose proof (Z.mod_pos_bound (v + 2^31) (2^32) ltac:(lia)). lia.
Qed.

Lemma int32_congruent (v : Z) : (int32 v - v) mod 2^32 = 0.
Proof.
  unfold int32. rewrite (Z.mod_eq (v + 2^31) (2^32)) by lia.
  replace (v + 2^31 - 2^32 * ((v + 2^31) / 2^32) - 2^31 - v)
    with (- ((v + 2^31) / 2^32) * 2^32) by lia.
  apply Z.mod_mul. lia.
Qed.

Lemma int32_id_iff (v : Z) : int32 v = v ↔ -2^31 ≤ v < 2^31.
Proof.
  split.
  - intros <-. apply int32_range.
  - intros Hv. unfold int32. rewrite Z.mod_small by lia. lia.
Qed.

(** X3: the action [Step] reports in its outcome is the [int] it was given,
    but the action it sends is that number wrapped to 32 bits: the two are the
    same exactly when the number fits in an [int32]. *)
Theorem Step_sends_int32 {S} (value : Z) (st st' : State S) (o : Outcome) :
  Env.Step value st = (Ok o, st') →
  ∃ sent resp,
    sphere.StepEnv (Client (recv st))
      {| sphere.StepEnvRequest_Id := sphere.Id (Environment (recv st));
         sphere.StepEnvRequest_Action := sent |} (remote st)
    = (inl resp, remote st')
    ∧ -2^31 ≤ sent < 2^31
    ∧ (sent - value) mod 2^32 = 0
    ∧ (sent = Action o ↔ -2^31 ≤ value < 2^31).
Proof.
  unfold Env.Step. intros H.
  apply bind_Ok in H as (e & st1 & He & H).
  apply this_Ok in He as [-> ->].
  apply bind_Ok in H as (resp & st2 & Hresp & H).
  apply rpc_Ok in Hresp as (Hcall & _ & _).
  injection H as <- <-.
  exists (int32 value), resp. simpl.
  split; [exact Hcall|]. split; [apply int32_range|]. split; [apply int32_congruent|].
  apply int32_id_iff.
Qed.

Lemma Step_sends_int32_witness :
  ∃ sent resp,
    sphere.StepEnv (gym two_episodes video_streams)
      {| sphere.StepEnvRequest_Id := "CartPole-v1-0";
         sphere.StepEnvRequest_Action := sent |} O
    = (inl resp, 1%nat)
    ∧ -2^31 ≤ sent < 2^31
    ∧ (sent - (2^32 + 1)) mod 2^32 = 0
    ∧ (sent = 2^32 + 1 ↔ -2^31 ≤ 2^32 + 1 < 2^31).
Proof.
  exact (Step_sends_int32 (2^32 + 1)
           (start (env_of CartPole (gym two_episodes video_streams) [] None) ∅)
           {| recv := env_of CartPole (gym two_episodes video_streams) [] None;
              remote := 1%nat;
              disk := sound_disk ∅ |}
           {| Observation := sphere.Tensor_Dense (obs [1; 2; 3; 4]);
              Action := 2^32 + 1;
              Reward := f32 1;
              Done := false |}
           eq_refl).
Defined.

(** ** Results: rewards that are not numbers, and the order of the map *)

Lemma float32_add_nan_l (y : float32) : float32_add S754_nan y = S754_nan.
Proof. destruct y; reflexivity. Qed.

Lemma float32_add_nan_r (x : float32) : float32_add x S754_nan = S754_nan.
Proof. destruct x; reflexivity. Qed.

Lemma float32_div_nan_l (y : float32) : float32_div S754_nan y = S754_nan.
Proof. destruct y; reflexivity. Qed.

Lemma sum_nan (l : list float32) : fold_left float32_add l S754_nan = S754_nan.
Proof.
  induction l as [|x l IH]; cbn [fold_left]; [reflexivity|].
  rewrite float32_add_nan_l. exact IH.
Qed.

Lemma sum_poisoned (l : list float32) (acc : float32) :
  S754_nan ∈ l → fold_left float32_add l acc = S754_nan.
Proof.
  revert acc. induction l as [|x l IH]; intros acc Hin; [inversion Hin|].
  apply elem_of_cons in Hin as [<-|Hin]; cbn [fold_left].
  - rewrite float32_add_nan_r. apply sum_nan.
  - apply IH. exact Hin.
Qed.

(** X5: one reward that is not a number is enough for the average to be not
    a number, however many episodes there are. *)
Theorem Results_NaN_reward {S} (st st' : State S) (r : Results)
    (k : Z) (res : sphere.EpisodeResult) :
  Env.Results st = (Ok r, st') →
  (k, res) ∈ Episodes r →
  sphere.EpisodeResult_Reward res = S754_nan →
  AverageReward r = S754_nan.
Proof.
  intros H Hin Hnan.
  apply Results_Ok in H as (resp & _ & Hep & _ & Havg & _).
  rewrite Havg, <- Hep. unfold mean_reward.
  rewrite sum_poisoned; [apply float32_div_nan_l|].
  unfold rewards. rewrite <- Hnan.
  apply (list_elem_of_fmap_2 (fun res0 : Z * sphere.EpisodeResult =>
                           sphere.EpisodeResult_Reward res0.2) _ (k, res)).
  exact Hin.
Qed.

Lemma Results_NaN_reward_witness :
  AverageReward
    {| Episodes := [(0, episode 1); (1, {| sphere.EpisodeResult_Reward := S754_nan |})];
       Videos := [];
       AverageReward := S754_nan |}
  = S754_nan.
Proof.
  refine (Results_NaN_reward
            (start (env_of CartPole
                      (gym {| sphere.ResultsResponse_EpisodeResults :=
                                [(0, episode 1);
                                 (1, {| sphere.EpisodeResult_Reward := S754_nan |})];
                              sphere.ResultsResponse_Videos := [] |} video_streams)
                      [] None) ∅)
            _ _ 1 {| sphere.EpisodeResult_Reward := S754_nan |} _ _ eq_refl).
  - vm_compute. reflexivity.
  - right. left.
Defined.

(** X6: the average depends on the order in which the map of episodes is
    visited, which Go leaves open: there are episodes whose rewards, added in
    one order and in another, give two different averages. *)
Theorem AverageReward_depends_on_order :
  ∃ (episodes episodes' : list (Z * sphere.EpisodeResult)) (r r' : Results),
    episodes ≡ₚ episodes'
    ∧ NoDup episodes.*1
    ∧ results_of episodes = Ok r
    ∧ results_of episodes' = Ok r'
    ∧ AverageReward r ≠ AverageReward r'.
Proof.
  exists [(0, episode 16777216); (1, episode 1); (2, episode 1)],
         [(1, episode 1); (2, episode 1); (0, episode 16777216)].
  eexists. eexists.
  split; [|split; [|split; [vm_compute; reflexivity|split; [vm_compute; reflexivity|]]]].
  - apply (Permutation_cons_append [(1, episode 1); (2, episode 1)]).
  - apply (NoDup_cons_2 0 [1; 2]); [apply not_elem_of_cons; split; [lia|]|].
    + apply not_elem_of_cons. split; [lia | apply not_elem_of_nil].
    + apply (NoDup_cons_2 1 [2]); [apply not_elem_of_cons; split; [lia | apply not_elem_of_nil]|].
      apply NoDup_singleton.
  - simpl. discriminate.
Qed.

(** ** Videos: the files it touches *)

Lemma same_faults_refl (fs : os.FileSystem) : same_faults fs fs.
Proof. repeat split. Qed.

Lemma same_faults_trans (fs1 fs2 fs3 : os.FileSystem) :
  same_faults fs1 fs2 → same_faults fs2 fs3 → same_faults fs1 fs3.
Proof.
  intros (H1 & H2 & H3 & H4) (H1' & H2' & H3' & H4'). repeat split; congruence.
Qed.

Lemma same_faults_with_files (fs : os.FileSystem) (m : gmap string (list Byte.byte)) :
  same_faults fs (os.with_files fs m).
Proof. repeat split. Qed.

Lemma touches_ret {S A} (P : string → Prop) (a : A) : touches_only P (mret a : M S A).
Proof. intros st r st' [= <- <-]. split; [apply same_faults_refl | split; auto]. Qed.

Lemma touches_raise {S A} (P : string → Prop) (err : error) :
  touches_only P (raise err : M S A).
Proof. intros st r st' [= <- <-]. split; [apply same_faults_refl | split; auto]. Qed.

Lemma touches_this {S} (P : string → Prop) : touches_only P (@this S).
Proof. intros st r st' [= <- <-]. split; [apply same_faults_refl | split; auto]. Qed.

Lemma touches_set_VideoPaths {S} (P : string → Prop) (videoPaths : list string) :
  touches_only P (@set_VideoPaths S videoPaths).
Proof. intros st r st' [= <- <-]. split; [apply same_faults_refl | split; auto]. Qed.

Lemma touches_rpc {S A} (P : string → Prop) (call : S → (A + error) * S) :
  touches_only P (rpc call).
Proof.
  intros st r st'. unfold rpc.
  destruct (call (remote st)) as [[a|err] s']; intros [= <- <-]; simpl;
    (split; [apply same_faults_refl | split; auto]).
Qed.

Lemma touches_bind {S A B} (P : string → Prop) (m : M S A) (f : A → M S B) :
  touches_only P m → (∀ a, touches_only P (f a)) → touches_only P (m ≫= f).
Proof.
  intros Hm Hf st r st' H.
  apply bind_cases in H as [(a & st1 & H1 & H2) | (r0 & H1 & _)].
  - destruct (Hm _ _ _ H1) as (Hs1 & Hk1 & Ho1).
    destruct (Hf _ _ _ _ H2) as (Hs2 & Hk2 & Ho2).
    split; [exact (same_faults_trans _ _ _ Hs1 Hs2)|]. split.
    + intros p Hp. apply Hk2, Hk1, Hp.
    + intros p Hp. rewrite (Ho2 p Hp). apply Ho1, Hp.
  - exact (Hm _ _ _ H1).
Qed.

Lemma touches_or_Fatal {S A} (P : string → Prop) (m : M S A) :
  touches_only P m → touches_only P (or_Fatal m).
Proof.
  intros Hm st r st'. unfold or_Fatal.
  destruct (m st) as [[a|e|msg|msg] st1] eqn:H; intros [= <- <-]; exact (Hm _ _ _ H).
Qed.

Lemma touches_Create {S} (P : string → Prop) (name : string) :
  P name → touches_only P (@sys S _ (os.Create name)).
Proof.
  intros HP st r st'. unfold sys, os.Create.
  destruct (os.Create_err (disk st) name); intros [= <- <-]; simpl.
  - split; [apply same_faults_refl | split; auto].
  - split; [apply same_faults_with_files | split].
    + intros p Hp. destruct (decide (name = p)) as [->|Hne].
      * rewrite lookup_insert_eq. eauto.
      * rewrite lookup_insert_ne by exact Hne. exact Hp.
    + intros p Hp. apply lookup_insert_ne. intros ->. exact (Hp HP).
Qed.

Lemma touches_Write {S} (P : string → Prop) (f : os.File) (b : list Byte.byte) :
  P f → touches_only P (@sys S _ (os.Write f b)).
Proof.
  intros HP st r st'. unfold sys, os.Write.
  destruct (os.Write_err (disk st) f _ b); intros [= <- <-]; simpl.
  - split; [apply same_faults_refl | split; auto].
  - split; [apply same_faults_with_files | split].
    + intros p Hp. destruct (decide (f = p)) as [->|Hne].
      * rewrite lookup_insert_eq. eauto.
      * rewrite lookup_insert_ne by exact Hne. exact Hp.
    + intros p Hp. apply lookup_insert_ne. intros ->. exact (Hp HP).
Qed.

Lemma touches_Results {S} (P : string → Prop) : touches_only P (@Env.Results S).
Proof.
  unfold Env.Results.
  apply touches_bind; [apply touches_this|]. intros e.
  apply touches_bind; [apply touches_rpc|]. intros resp. apply touches_ret.
Qed.

Lemma touches_recv_loop {S} (P : string → Prop) (f : os.File)
    (msgs : list sphere.GetVideoResponse) (stream_end : error) (CloseSend : option error) :
  P f → touches_only P (@Env.recv_loop S f msgs stream_end CloseSend).
Proof.
  intros HP. induction msgs as [|resp msgs IH]; simpl.
  - destruct stream_end; try apply touches_raise.
    destruct CloseSend; [apply touches_raise | apply touches_ret].
  - apply touches_bind; [apply touches_Write, HP|]. intros _. exact IH.
Qed.

Lemma touches_videos_loop {S} (filepath_Clean : string → string) (path : string)
    (videos : list (Z * sphere.Video)) (videoPaths : list string)
    (st st' : State S) (r : result (list string)) :
  Env.videos_loop filepath_Clean path videos videoPaths st = (r, st') →
  same_faults (disk st) (disk st')
  ∧ (∀ p, is_Some (os.files (disk st) !! p) → is_Some (os.files (disk st') !! p))
  ∧ (∀ p, ¬ is_video_path filepath_Clean path (sphere.Id (Environment (recv st))) p →
          os.files (disk st') !! p = os.files (disk st) !! p).
Proof.
  revert videoPaths st. induction videos as [|[k video] videos IH]; intros videoPaths st H;
    simpl in H.
  - injection H as <- <-. split; [apply same_faults_refl | split; auto].
  - set (P := is_video_path filepath_Clean path (sphere.Id (Environment (recv st)))).
    apply bind_cases in H as [(e & st0 & He & H) | (r0 & He & Hr0)];
      [apply this_Ok in He as [-> ->] | injection He as <- _; destruct Hr0].
    set (fp := Env.filepath_Join filepath_Clean path
                 (sphere.Id (Environment (recv st)) +:+ "-episode"
                    +:+ pretty (sphere.Video_EpisodeId video) +:+ ".mp4")) in H.
    assert (Hfp : P fp) by (exists (sphere.Video_EpisodeId video); reflexivity).
    apply bind_cases in H as [(stream & st1 & Hget & H) | (r0 & Hget & _)];
      [|exact (touches_rpc P _ _ _ _ Hget)].
    pose proof (touches_rpc P _ _ _ _ Hget) as (Hs1 & Hk1 & Ho1).
    apply keeps_rpc in Hget.
    apply bind_cases in H as [(f & st2 & Hc & H) | (r0 & Hc & _)].
    2: { destruct (touches_Create P _ Hfp _ _ _ Hc) as (Hs2 & Hk2 & Ho2).
         split; [exact (same_faults_trans _ _ _ Hs1 Hs2)|]. split.
         - intros p Hp. apply Hk2, Hk1, Hp.
         - intros p Hp. rewrite (Ho2 p Hp). apply Ho1, Hp. }
    destruct (touches_Create P _ Hfp _ _ _ Hc) as (Hs2 & Hk2 & Ho2).
    pose proof (keeps_sys _ _ _ _ Hc) as Hrecv2.
    apply sys_Ok in Hc as (Hc & _ & _). apply Create_Ok in Hc as [-> _].
    apply bind_cases in H as [(u & st3 & Hl & H) | (r0 & Hl & _)].
    2: { destruct (touches_recv_loop P _ _ _ _ Hfp _ _ _ Hl) as (Hs3 & Hk3 & Ho3).
         split; [exact (same_faults_trans _ _ _ Hs1 (same_faults_trans _ _ _ Hs2 Hs3))|].
         split.
         - intros p Hp. apply Hk3, Hk2, Hk1, Hp.
         - intros p Hp. rewrite (Ho3 p Hp), (Ho2 p Hp). apply Ho1, Hp. }
    destruct (touches_recv_loop P _ _ _ _ Hfp _ _ _ Hl) as (Hs3 & Hk3 & Ho3).
    apply keeps_recv_loop in Hl.
    apply IH in H as (Hs4 & Hk4 & Ho4).
    rewrite Hl, Hrecv2, Hget in Ho4. fold P in Ho4.
    split; [exact (same_faults_trans _ _ _ Hs1
                     (same_faults_trans _ _ _ Hs2 (same_faults_trans _ _ _ Hs3 Hs4)))|].
    split.
    + intros p Hp. apply Hk4, Hk3, Hk2, Hk1, Hp.
    + intros p Hp. rewrite (Ho4 p Hp), (Ho3 p Hp), (Ho2 p Hp). apply Ho1, Hp.
Qed.

(** X7: however [Videos] ends, it has removed no file, and every file whose
    path is not that of an episode of this environment, in the directory
    written to, is as it was; the operations that fail on the disk for reasons
    of its own are the same afterwards. *)
Theorem Videos_touches_only_video_files {S} (filepath_Clean : string → string) (path : string)
    (st st' : State S) (r : result (list string)) :
  Env.Videos filepath_Clean path st = (r, st') →
  let id := sphere.Id (Environment (recv st)) in
  let dir := if decide (path = "") then "./results/" +:+ id else path in
  same_faults (disk st) (disk st')
  ∧ (∀ p, is_Some (os.files (disk st) !! p) → is_Some (os.files (disk st') !! p))
  ∧ (∀ p,
       (∀ episode : Z,
          p ≠ Env.filepath_Join filepath_Clean dir
                (id +:+ "-episode" +:+ pretty episode +:+ ".mp4")) →
       os.files (disk st') !! p = os.files (disk st) !! p).
Proof.
  intros H id dir. unfold Env.Videos in H.
  assert (Hframe : ∀ p : string,
            (∀ episode : Z,
               p ≠ Env.filepath_Join filepath_Clean dir
                     (id +:+ "-episode" +:+ pretty episode +:+ ".mp4")) →
            ¬ is_video_path filepath_Clean dir id p).
  { intros p Hp [episode ->]. exact (Hp episode eq_refl). }
  apply bind_cases in H as [(e & st0 & He & H) | (r0 & He & Hr0)];
    [apply this_Ok in He as [-> ->] | injection He as <- _; destruct Hr0].
  fold id in H. fold dir in H.
  apply bind_cases in H as [(results & st1 & Hres & H) | (r0 & Hres & _)].
  2: { destruct (touches_Results (is_video_path filepath_Clean dir id) _ _ _ Hres)
         as (Hs & Hk & Ho). split; [exact Hs|]. split; [exact Hk|].
       intros p Hp. apply Ho, Hframe, Hp. }
  destruct (touches_Results (is_video_path filepath_Clean dir id) _ _ _ Hres)
    as (Hs1 & Hk1 & Ho1).
  apply keeps_Results in Hres.
  assert (Hloop : ∀ r2 st2,
            Env.videos_loop filepath_Clean dir (Videos results) [] st1 = (r2, st2) →
            same_faults (disk st) (disk st2)
            ∧ (∀ p, is_Some (os.files (disk st) !! p) → is_Some (os.files (disk st2) !! p))
            ∧ (∀ p, ¬ is_video_path filepath_Clean dir id p →
                    os.files (disk st2) !! p = os.files (disk st) !! p)).
  { intros r2 st2 Hl. apply touches_videos_loop in Hl as (Hs2 & Hk2 & Ho2).
    rewrite Hres in Ho2. fold id in Ho2.
    split; [exact (same_faults_trans _ _ _ Hs1 Hs2)|]. split.
    - intros p Hp. apply Hk2, Hk1, Hp.
    - intros p Hp. rewrite (Ho2 p Hp). apply Ho1, Hp. }
  apply bind_cases in H as [(vps & st2 & Hl & H) | (r0 & Hl & _)].
  - destruct (Hloop _ _ Hl) as (Hs & Hk & Ho).
    injection H as <- <-. simpl.
    split; [exact Hs|]. split; [exact Hk|]. intros p Hp. apply Ho, Hframe, Hp.
  - destruct (Hloop _ _ Hl) as (Hs & Hk & Ho).
    split; [exact Hs|]. split; [exact Hk|]. intros p Hp. apply Ho, Hframe, Hp.
Qed.

Lemma Videos_touches_only_video_files_witness :
  let st := {| recv := env_of CartPole (gym two_episodes broken_streams) [] None;
               remote := O;
               disk := sound_disk {[ "notes.txt" := [Byte.x41] ]} |} in
  let st' := (Env.Videos no_cleaning "/tmp/sphere" st).2 in
  same_faults (disk st) (disk st')
  ∧ (∀ p, is_Some (os.files (disk st) !! p) → is_Some (os.files (disk st') !! p))
  ∧ (∀ p,
       (∀ episode : Z,
          p ≠ Env.filepath_Join no_cleaning "/tmp/sphere"
                ("CartPole-v1-0" +:+ "-episode" +:+ pretty episode +:+ ".mp4")) →
       os.files (disk st') !! p = os.files (disk st) !! p).
Proof.
  intros st st'.
  refine (Videos_touches_only_video_files no_cleaning "/tmp/sphere" st st'
            (Err (external "rpc error: code = Unavailable")) _).
  vm_compute. reflexivity.
Defined.

(** ** Clean: when it returns *)

Lemma Remove_Ok_fault (name : string) (fs fs' : os.FileSystem) (u : unit) :
  os.Remove name fs = (inl u, fs') →
  os.Remove_err fs name = None ∧ same_faults fs fs'.
Proof.
  unfold os.Remove. destruct (os.Remove_err fs name) eqn:Hf; [discriminate|].
  destruct (os.files fs !! name); [|discriminate].
  intros H. injection H as _ <-. split; [reflexivity | apply same_faults_with_files].
Qed.

Lemma clean_loop_Ok_faults {S} (videoPaths : list string) (st st' : State S) (u : unit) :
  Env.clean_loop videoPaths st = (Ok u, st') →
  same_faults (disk st) (disk st')
  ∧ ∀ p, p ∈ videoPaths → os.Remove_err (disk st) p = None.
Proof.
  revert st. induction videoPaths as [|p ps IH]; intros st H; simpl in H.
  - injection H as _ <-. split; [apply same_faults_refl | intros p Hp; inversion Hp].
  - apply bind_Ok in H as (u1 & st1 & Hrm & H).
    apply or_Fatal_Ok, sys_Ok in Hrm as (Hrm & _ & _).
    apply Remove_Ok_fault in Hrm as [Hnone Hs1].
    apply IH in H as [Hs2 Hall].
    split; [exact (same_faults_trans _ _ _ Hs1 Hs2)|].
    intros q [->|Hq]%elem_of_cons; [exact Hnone|].
    destruct Hs1 as (_ & _ & Hrm & _). rewrite <- Hrm. exact (Hall q Hq).
Qed.

Lemma clean_loop_returns {S} (videoPaths : list string) (st : State S) :
  NoDup videoPaths →
  (∀ p, p ∈ videoPaths →
        is_Some (os.files (disk st) !! p) ∧ os.Remove_err (disk st) p = None) →
  ∃ st', Env.clean_loop videoPaths st = (Ok tt, st').
Proof.
  revert st. induction videoPaths as [|p ps IH]; intros st Hnd Hall; simpl.
  - eexists. reflexivity.
  - apply NoDup_cons in Hnd as [Hp Hnd].
    destruct (Hall p ltac:(left)) as [[content Hcontent] Hfault].
    unfold mbind, M_bind, or_Fatal, sys, os.Remove. rewrite Hfault, Hcontent.
    apply IH; [exact Hnd|]. simpl.
    intros q Hq. destruct (Hall q ltac:(right; exact Hq)) as [Hsome Hnone].
    split; [|exact Hnone].
    rewrite lookup_delete_ne; [exact Hsome|]. intros ->. exact (Hp Hq).
Qed.

(** X8: [Clean] returns exactly when the paths in [VideoPaths] are pairwise
    different, each of them names a file, and none of the removals fails for
    a reason of the system's own; in every other case it ends the process.  It
    never returns an error and never panics. *)
Theorem Clean_returns_iff {S} (st : State S) :
  ((Env.Clean st).1 = Ok tt
   ↔ NoDup (VideoPaths (recv st))
     ∧ ∀ p, p ∈ VideoPaths (recv st) →
            is_Some (os.files (disk st) !! p) ∧ os.Remove_err (disk st) p = None)
  ∧ ((Env.Clean st).1 = Ok tt ∨ (Env.Clean st).1 = Exit "log.Fatal(err)").
Proof.
  assert (Hclean : Env.Clean st = Env.clean_loop (VideoPaths (recv st)) st) by reflexivity.
  rewrite Hclean.
  destruct (Env.clean_loop (VideoPaths (recv st)) st) as [r st'] eqn:H. simpl.
  split; [split|].
  - intros ->. pose proof (clean_loop_Ok_faults _ _ _ _ H) as [_ Hfaults].
    apply clean_loop_Ok in H as (_ & _ & Hnd & Hall).
    split; [exact Hnd|]. intros p Hp. split; [exact (Hall p Hp) | exact (Hfaults p Hp)].
  - intros [Hnd Hall]. destruct (clean_loop_returns _ st Hnd Hall) as [st'' H'].
    rewrite H in H'. injection H' as -> _. reflexivity.
  - destruct r as [[]|e|msg|msg]; [left; reflexivity | right ..];
      apply clean_loop_failed in H as [Hr _]; try exact I; exact Hr.
Qed.

(** ** Videos and Clean, one after the other *)

(** A successful [Videos] in terms of the disk alone. *)
Lemma Videos_Ok_disk {S} (filepath_Clean : string → string) (path : string)
    (st st' : State S) (videoPaths : list string) :
  Env.Videos filepath_Clean path st = (Ok videoPaths, st') →
  VideoPaths (recv st') = videoPaths
  ∧ same_faults (disk st) (disk st')
  ∧ ∃ resp s1 streams,
      sphere.Results (Client (recv st))
        {| sphere.ResultsRequest_Id := sphere.Id (Environment (recv st)) |} (remote st)
      = (inl resp, s1)
      ∧ videoPaths =
          map (fun v => video_path filepath_Clean
                          (if decide (path = "")
                           then "./results/" +:+ sphere.Id (Environment (recv st)) else path)
                          (sphere.Id (Environment (recv st))) (sphere.Video_EpisodeId v.2))
              (sphere.ResultsResponse_Videos resp)
      ∧ downloads (Client (recv st)) (sphere.Id (Environment (recv st)))
          (sphere.ResultsResponse_Videos resp) streams s1 (remote st')
      ∧ length streams = length videoPaths
      ∧ os.files (disk st') = written videoPaths streams (os.files (disk st)).
Proof.
  unfold Env.Videos. intros H.
  apply bind_Ok in H as (e & st0 & He & H). apply this_Ok in He as [-> ->].
  apply bind_Ok in H as (results & st1 & Hres & H).
  pose proof (touches_Results (fun _ => True) _ _ _ Hres) as (Hs1 & _ & _).
  apply Results_Ok in Hres as (resp & Hcall & _ & Hvideos & _ & Hrecv1 & Hdisk1).
  apply bind_Ok in H as (vps & st2 & Hloop & H).
  pose proof (touches_videos_loop _ _ _ _ _ _ _ Hloop) as (Hs2 & _ & _).
  apply videos_loop_Ok in Hloop as (Hvps & streams & Hdl & Hfiles).
  injection H as <- <-. simpl in *.
  rewrite Hrecv1, Hvideos, Hdisk1 in *. subst vps.
  split; [reflexivity|]. split; [exact (same_faults_trans _ _ _ Hs1 Hs2)|].
  exists resp, (remote st1), streams.
  split; [exact Hcall|]. split; [reflexivity|]. split; [exact Hdl|].
  split; [rewrite length_map; exact (downloads_length _ _ _ _ _ _ Hdl) | exact Hfiles].
Qed.

Lemma written_is_Some (paths : list string) (streams : list sphere.EnvironmentAPI_GetVideoClient)
    (m : gmap string (list Byte.byte)) (p : string) :
  length streams = length paths → p ∈ paths →
  is_Some (written paths streams m !! p).
Proof.
  revert streams m. induction paths as [|q paths IH]; intros [|s0 streams] m Hlen Hp;
    try discriminate; [inversion Hp|].
  change (written (q :: paths) (s0 :: streams) m)
    with (written paths streams (<[q := stream_bytes s0]> m)).
  destruct (decide (p ∈ paths)) as [Hin|Hin].
  - apply IH; [simpl in Hlen; lia | exact Hin].
  - apply elem_of_cons in Hp as [->|Hp]; [|contradiction].
    rewrite written_other by exact Hin. rewrite lookup_insert_eq. eauto.
Qed.

Lemma removed_written (paths : list string) (streams : list sphere.EnvironmentAPI_GetVideoClient)
    (m : gmap string (list Byte.byte)) :
  removed paths (written paths streams m) = removed paths m.
Proof.
  apply map_eq. intros p. rewrite !removed_lookup.
  destruct (decide (p ∈ paths)) as [Hin|Hin]; [reflexivity|].
  apply written_other. exact Hin.
Qed.

Lemma removed_absent (paths : list string) (m : gmap string (list Byte.byte)) :
  (∀ p, p ∈ paths → m !! p = None) → removed paths m = m.
Proof.
  intros Habsent. apply map_eq. intros p. rewrite removed_lookup.
  destruct (decide (p ∈ paths)) as [Hin|Hin]; [symmetry; exact (Habsent p Hin) | reflexivity].
Qed.

(** X9: after a [Videos] that succeeded with pairwise different paths, on a
    disk that lets these paths be removed, [Clean] returns, and the files on
    the disk are those from before [Videos] without the ones at the video
    paths: when none of these paths named a file before, the disk is back to
    what it was.  [VideoPaths] still lists the paths. *)
Theorem Videos_then_Clean {S} (filepath_Clean : string → string) (path : string)
    (st st1 : State S) (videoPaths : list string) :
  Env.Videos filepath_Clean path st = (Ok videoPaths, st1) →
  NoDup videoPaths →
  (∀ p, p ∈ videoPaths → os.Remove_err (disk st) p = None) →
  ∃ st2,
    Env.Clean st1 = (Ok tt, st2)
    ∧ VideoPaths (recv st2) = videoPaths
    ∧ os.files (disk st2) = removed videoPaths (os.files (disk st))
    ∧ ((∀ p, p ∈ videoPaths → os.files (disk st) !! p = None) →
       os.files (disk st2) = os.files (disk st)).
Proof.
  intros H Hnd Hrm.
  apply Videos_Ok_disk in H
    as (Hpaths & (_ & _ & Hfaults & _) & resp & s1 & streams & _ & _ & _ & Hlen & Hfiles).
  assert (Hclean : Env.Clean st1 = Env.clean_loop (VideoPaths (recv st1)) st1) by reflexivity.
  rewrite Hpaths in Hclean.
  destruct (clean_loop_returns videoPaths st1 Hnd) as [st2 H2].
  { intros p Hp. split; [|rewrite Hfaults; exact (Hrm p Hp)].
    rewrite Hfiles. apply written_is_Some; assumption. }
  exists st2. rewrite Hclean. split; [exact H2|].
  pose proof (keeps_clean_loop _ _ _ _ H2) as Hrecv.
  apply clean_loop_Ok in H2 as (_ & Hfiles2 & _ & _).
  rewrite Hfiles, removed_written in Hfiles2.
  split; [rewrite Hrecv; exact Hpaths|]. split; [exact Hfiles2|].
  intros Habsent. rewrite Hfiles2. apply removed_absent. exact Habsent.
Qed.

Lemma Videos_then_Clean_witness :
  ∃ st2,
    Env.Clean recorded = (Ok tt, st2)
    ∧ VideoPaths (recv st2)
      = ["/tmp/sphere/CartPole-v1-0-episode0.mp4"; "/tmp/sphere/CartPole-v1-0-episode1.mp4"]
    ∧ os.files (disk st2)
      = removed ["/tmp/sphere/CartPole-v1-0-episode0.mp4";
                 "/tmp/sphere/CartPole-v1-0-episode1.mp4"] (os.files (disk recording))
    ∧ ((∀ p, p ∈ ["/tmp/sphere/CartPole-v1-0-episode0.mp4";
                  "/tmp/sphere/CartPole-v1-0-episode1.mp4"] →
             os.files (disk recording) !! p = None) →
       os.files (disk st2) = os.files (disk recording)).
Proof.
  refine (Videos_then_Clean no_cleaning "/tmp/sphere" recording recorded
            ["/tmp/sphere/CartPole-v1-0-episode0.mp4";
             "/tmp/sphere/CartPole-v1-0-episode1.mp4"] _ _ _).
  - vm_compute. reflexivity.
  - apply NoDup_cons_2; [|apply NoDup_singleton].
    intros Hin%list_elem_of_singleton. discriminate Hin.
  - intros p _. reflexivity.
Defined.

(** X10: two video references that carry the same episode id are saved to
    the same path, the later download replacing the earlier; the path is then
    listed twice in [VideoPaths], and a [Clean] that follows ends the process
    at its second removal. *)
Theorem Videos_same_episode_twice {S} (filepath_Clean : string → string) (path : string)
    (st st1 : State S) (videoPaths : list string)
    (resp : sphere.ResultsResponse) (s1 : S) (i j : nat) (v w : Z * sphere.Video) :
  Env.Videos filepath_Clean path st = (Ok videoPaths, st1) →
  sphere.Results (Client (recv st))
    {| sphere.ResultsRequest_Id := sphere.Id (Environment (recv st)) |} (remote st)
  = (inl resp, s1) →
  i ≠ j →
  sphere.ResultsResponse_Videos resp !! i = Some v →
  sphere.ResultsResponse_Videos resp !! j = Some w →
  sphere.Video_EpisodeId v.2 = sphere.Video_EpisodeId w.2 →
  is_Some (videoPaths !! i)
  ∧ videoPaths !! i = videoPaths !! j
  ∧ (Env.Clean st1).1 = Exit "log.Fatal(err)".
Proof.
  intros H Hcall Hij Hv Hw Hsame.
  apply Videos_Ok_disk in H
    as (Hpaths & _ & resp' & s1' & streams & Hcall' & Hvps & _ & _ & _).
  rewrite Hcall in Hcall'. injection Hcall' as <- <-.
  assert (Hi : videoPaths !! i = videoPaths !! j ∧ is_Some (videoPaths !! i)).
  { rewrite Hvps, !list_lookup_fmap, Hv, Hw. simpl. rewrite Hsame. eauto. }
  destruct Hi as [Heq [p Hp]].
  split; [eauto|]. split; [exact Heq|].
  assert (Hclean : Env.Clean st1 = Env.clean_loop (VideoPaths (recv st1)) st1) by reflexivity.
  rewrite Hclean, Hpaths.
  destruct (Env.clean_loop videoPaths st1) as [r st2] eqn:H2. simpl.
  destruct r as [u|e|msg|msg];
    [| apply clean_loop_failed in H2 as [Hr _]; [exact Hr | exact I] ..].
  apply clean_loop_Ok in H2 as (_ & _ & Hnd & _).
  exfalso. apply Hij. apply (NoDup_lookup videoPaths i j p Hnd Hp). rewrite <- Heq. exact Hp.
Qed.

Lemma Videos_same_episode_twice_witness :
  let client :=
    gym {| sphere.ResultsResponse_EpisodeResults := [];
           sphere.ResultsResponse_Videos :=
             [(0, {| sphere.Video_EpisodeId := 1 |}); (1, {| sphere.Video_EpisodeId := 1 |})] |}
        video_streams in
  let st := start (env_of CartPole client [] None) ∅ in
  let st1 := (Env.Videos no_cleaning "/tmp/sphere" st).2 in
  let videoPaths :=
    ["/tmp/sphere/CartPole-v1-0-episode1.mp4"; "/tmp/sphere/CartPole-v1-0-episode1.mp4"] in
  is_Some (videoPaths !! 0%nat)
  ∧ videoPaths !! 0%nat = videoPaths !! 1%nat
  ∧ (Env.Clean st1).1 = Exit "log.Fatal(err)".
Proof.
  intros client st st1 videoPaths.
  refine (Videos_same_episode_twice no_cleaning "/tmp/sphere" st st1 videoPaths
            _ 1%nat 0%nat 1%nat
            (0, {| sphere.Video_EpisodeId := 1 |}) (1, {| sphere.Video_EpisodeId := 1 |})
            _ eq_refl _ eq_refl eq_refl eq_refl).
  - vm_compute. reflexivity.
  - discriminate.
Defined.

(** ** PlayAll *)

Lemma play_loop_all_open {S} (videoPaths : list string) (st : State S) :
  (∀ p, p ∈ videoPaths → os.Run_err (disk st) p = None) →
  Env.play_loop videoPaths st = (Ok tt, st).
Proof.
  induction videoPaths as [|p ps IH]; intros Hall; simpl; [reflexivity|].
  unfold mbind, M_bind, or_Fatal, sys, os.open_Run.
  rewrite (Hall p) by left. destruct st as [e s fs]. simpl.
  apply IH. intros q Hq. apply Hall. right. exact Hq.
Qed.

Lemma play_loop_one_fails {S} (videoPaths : list string) (st : State S) (p : string) :
  p ∈ videoPaths → os.Run_err (disk st) p ≠ None →
  Env.play_loop videoPaths st = (Exit "log.Fatal(err)", st).
Proof.
  induction videoPaths as [|q ps IH]; intros Hp Hfail; [inversion Hp|]. simpl.
  unfold mbind, M_bind, or_Fatal, sys, os.open_Run.
  destruct (os.Run_err (disk st) q) as [err|] eqn:Hq; destruct st as [e s fs]; simpl.
  - reflexivity.
  - apply IH; [|exact Hfail].
    apply elem_of_cons in Hp as [->|Hp]; [contradiction | exact Hp].
Qed.

(** X11: [PlayAll] removes the videos only after every one of them has been
    handed to the viewer.  When all of them open, it goes on exactly as
    [Clean] does; when one of them does not, it ends the process and no file
    has been removed. *)
Theorem PlayAll_opens_before_removing {S} (st : State S) :
  ((∀ p, p ∈ VideoPaths (recv st) → os.Run_err (disk st) p = None) →
   Env.PlayAll st = Env.Clean st)
  ∧ (∀ p, p ∈ VideoPaths (recv st) → os.Run_err (disk st) p ≠ None →
     Env.PlayAll st = (Exit "log.Fatal(err)", st)).
Proof.
  assert (Hplay : Env.PlayAll st =
                  (_ ← Env.play_loop (VideoPaths (recv st)); Env.Clean) st) by reflexivity.
  rewrite Hplay. unfold mbind, M_bind. split.
  - intros Hall. rewrite (play_loop_all_open _ _ Hall). reflexivity.
  - intros p Hp Hfail. rewrite (play_loop_one_fails _ _ p Hp Hfail). reflexivity.
Qed.

Lemma PlayAll_opens_before_removing_witness :
  Env.PlayAll recorded = Env.Clean recorded
  ∧ Env.PlayAll
      {| recv := env_of CartPole (gym two_episodes video_streams) ["a.mp4"; "b.mp4"] None;
         remote := O;
         disk := {| os.files := {[ "a.mp4" := []; "b.mp4" := [] ]};
                    os.Create_err := fun _ => None;
                    os.Write_err := fun _ _ _ => None;
                    os.Remove_err := fun _ => None;
                    os.Run_err := fun p => if decide (p = "b.mp4")
                                           then Some (external "exit status 3") else None |} |}
    = (Exit "log.Fatal(err)",
       {| recv := env_of CartPole (gym two_episodes video_streams) ["a.mp4"; "b.mp4"] None;
          remote := O;
          disk := {| os.files := {[ "a.mp4" := []; "b.mp4" := [] ]};
                     os.Create_err := fun _ => None;
                     os.Write_err := fun _ _ _ => None;
                     os.Remove_err := fun _ => None;
                     os.Run_err := fun p => if decide (p = "b.mp4")
                                            then Some (external "exit status 3") else None |} |}).
Proof.
  split.
  - apply (proj1 (PlayAll_opens_before_removing recorded)). intros p _. reflexivity.
  - apply (proj2 (PlayAll_opens_before_removing _) "b.mp4").
    + right. left.
    + discriminate.
Defined.

(** ** Videos: one file for each episode *)

Lemma string_length_app (s1 s2 : string) :
  String.length (s1 +:+ s2) = (String.length s1 + String.length s2)%nat.
Proof. induction s1 as [|a s1 IH]; simpl; [reflexivity | rewrite IH; reflexivity]. Qed.

Lemma string_app_inj_r (s1 s2 t : string) : s1 +:+ t = s2 +:+ t → s1 = s2.
Proof.
  revert s2. induction s1 as [|a s1 IH]; intros [|b s2] H.
  - reflexivity.
  - apply (f_equal String.length) in H. simpl in H. rewrite !string_length_app in H. simpl in H. lia.
  - apply (f_equal String.length) in H. simpl in H. rewrite !string_length_app in H. simpl in H. lia.
  - simpl in H. injection H as -> H. f_equal. exact (IH _ H).
Qed.

(** The name of the file of an episode tells the episode. *)
Lemma video_name_inj (id : string) (n m : Z) :
  id +:+ "-episode" +:+ pretty n +:+ ".mp4" = id +:+ "-episode" +:+ pretty m +:+ ".mp4" →
  n = m.
Proof.
  intros H. apply String.app_inj, String.app_inj, string_app_inj_r in H.
  exact (pretty_Z_inj _ _ H).
Qed.

(** X12: when the video references carry pairwise different episode ids,
    and cleaning the joined paths keeps the file names of different episodes
    apart, a [Videos] that succeeds returns pairwise different paths, and the
    file of each episode holds exactly the bytes of that episode's stream, in
    the order received. *)
Theorem Videos_one_file_per_episode {S} (filepath_Clean : string → string) (path : string)
    (st st' : State S) (videoPaths : list string)
    (resp : sphere.ResultsResponse) (s1 : S) :
  let id := sphere.Id (Environment (recv st)) in
  let dir := if decide (path = "") then "./results/" +:+ id else path in
  let name := fun episode : Z => id +:+ "-episode" +:+ pretty episode +:+ ".mp4" in
  Env.Videos filepath_Clean path st = (Ok videoPaths, st') →
  sphere.Results (Client (recv st)) {| sphere.ResultsRequest_Id := id |} (remote st)
  = (inl resp, s1) →
  NoDup (map (fun v => sphere.Video_EpisodeId v.2) (sphere.ResultsResponse_Videos resp)) →
  (∀ n m, Env.filepath_Join filepath_Clean dir (name n)
          = Env.filepath_Join filepath_Clean dir (name m) → name n = name m) →
  NoDup videoPaths
  ∧ ∃ streams,
      downloads (Client (recv st)) id (sphere.ResultsResponse_Videos resp) streams s1 (remote st')
      ∧ ∀ i v stream,
          sphere.ResultsResponse_Videos resp !! i = Some v →
          streams !! i = Some stream →
          os.files (disk st')
            !! Env.filepath_Join filepath_Clean dir (name (sphere.Video_EpisodeId v.2))
          = Some (stream_bytes stream).
Proof.
  intros id dir name H Hcall Hids Hclean.
  apply Videos_Ok_disk in H
    as (_ & _ & resp' & s1' & streams & Hcall' & Hvps & Hdl & _ & Hfiles).
  fold id in Hcall', Hvps, Hdl. fold dir in Hvps.
  rewrite Hcall in Hcall'. injection Hcall' as <- <-.
  assert (Hnd : NoDup videoPaths).
  { rewrite Hvps.
    change (map (fun v : Z * sphere.Video =>
                   video_path filepath_Clean dir id (sphere.Video_EpisodeId v.2))
                (sphere.ResultsResponse_Videos resp))
      with (map (fun v : Z * sphere.Video =>
                   (fun episode => Env.filepath_Join filepath_Clean dir (name episode))
                     (sphere.Video_EpisodeId v.2))
                (sphere.ResultsResponse_Videos resp)).
    rewrite <- (map_map (fun v : Z * sphere.Video => sphere.Video_EpisodeId v.2)
                        (fun episode => Env.filepath_Join filepath_Clean dir (name episode))).
    apply (NoDup_fmap_2_strong
             (fun episode => Env.filepath_Join filepath_Clean dir (name episode)));
      [|exact Hids].
    intros n m _ _ Hnm. apply Hclean in Hnm. exact (video_name_inj id n m Hnm). }
  split; [exact Hnd|]. exists streams. split; [exact Hdl|].
  intros i v stream Hv Hs. rewrite Hfiles.
  apply (written_lookup videoPaths streams _ i); [exact Hnd | | exact Hs].
  rewrite Hvps, list_lookup_fmap, Hv. reflexivity.
Qed.

Lemma Videos_one_file_per_episode_witness :
  NoDup ["/tmp/sphere/CartPole-v1-0-episode0.mp4"; "/tmp/sphere/CartPole-v1-0-episode1.mp4"]
  ∧ ∃ streams,
      downloads (gym two_episodes video_streams) "CartPole-v1-0"
        (sphere.ResultsResponse_Videos two_episodes) streams 1%nat (remote recorded)
      ∧ ∀ i v stream,
          sphere.ResultsResponse_Videos two_episodes !! i = Some v →
          streams !! i = Some stream →
          os.files (disk recorded)
            !! Env.filepath_Join no_cleaning "/tmp/sphere"
                 ("CartPole-v1-0" +:+ "-episode" +:+ pretty (sphere.Video_EpisodeId v.2)
                    +:+ ".mp4")
          = Some (stream_bytes stream).
Proof.
  refine (Videos_one_file_per_episode no_cleaning "/tmp/sphere" recording recorded
            ["/tmp/sphere/CartPole-v1-0-episode0.mp4";
             "/tmp/sphere/CartPole-v1-0-episode1.mp4"]
            two_episodes 1%nat _ eq_refl _ _).
  - vm_compute. reflexivity.
  - apply (NoDup_cons_2 0 [1]); [|apply NoDup_singleton].
    intros Hin%list_elem_of_singleton. discriminate Hin.
  - intros n m Hnm. unfold Env.filepath_Join, no_cleaning in Hnm.
    apply (String.app_inj "/tmp/sphere/") in Hnm. exact Hnm.
Defined.

(** ** The shape of the observation space and BoxSpace *)

(** X13: for an environment whose observation space [BoxSpace] accepts,
    [ObservationSpaceShape] returns the [Shape] that [BoxSpace] returns, with
    one exception: a box without dimensions, which [BoxSpace] turns into
    tensors of shape [[]], makes [ObservationSpaceShape] end the process. *)
Theorem ObservationSpaceShape_of_box {S} (e : Env S) (b : BoxSpace) :
  Env.BoxSpace e = Ok b →
  Env.ObservationSpaceShape e =
    match Shape b with
    | [] => Exit "space had no shape: %v"
    | d :: ds => Ok (d :: ds)
    end.
Proof.
  unfold Env.BoxSpace, Env.ObservationSpaceShape, SpaceShape, sphere.Space_GetBox.
  destruct (sphere.Space_GetInfo (sphere.ObservationSpace (Environment e)))
    as [[sp|d|m|s]|]; try discriminate.
  intros [= <-]. simpl. rewrite shape_copy, shape_guard, Int32SliceToInt_id. simpl.
  destruct (sphere.BoxSpace_Shape sp); reflexivity.
Qed.

Lemma ObservationSpaceShape_of_box_witness :
  Env.ObservationSpaceShape (env_of CartPole (gym two_episodes video_streams) [] None) = Ok [4]
  ∧ Env.ObservationSpaceShape
      (env_of {| sphere.Id := "Empty-v0";
                 sphere.ActionSpace := discrete_space 2;
                 sphere.ObservationSpace := box_space [] [] [] |}
              (gym two_episodes video_streams) [] None)
    = Exit "space had no shape: %v".
Proof.
  split.
  - exact (ObservationSpaceShape_of_box
             (env_of CartPole (gym two_episodes video_streams) [] None)
             {| High := tensor_New [4] (map f32 [5; 3; 1; 3]);
                Low := tensor_New [4] (map f32 [-5; -3; -1; -3]);
                Shape := [4] |} eq_refl).
  - exact (ObservationSpaceShape_of_box
             (env_of {| sphere.Id := "Empty-v0";
                        sphere.ActionSpace := discrete_space 2;
                        sphere.ObservationSpace := box_space [] [] [] |}
                     (gym two_episodes video_streams) [] None)
             {| High := tensor_New [] []; Low := tensor_New [] []; Shape := [] |} eq_refl).
Defined.

(** ** SampleAction, then Step *)

(** X14: an action that [SampleAction] returned goes over the wire unchanged
    when it is given to [Step]: the value the remote sampled, an [int32], is
    the action [Step] sends and the action its outcome reports. *)
Theorem SampleAction_then_Step {S} (rest : sphere.EnvironmentAPIClient_rest S)
    (st st1 st2 : State S) (a : Z) (o : Outcome) :
  Env.SampleAction rest st = (Ok a, st1) →
  Env.Step a st1 = (Ok o, st2) →
  ∃ sampled resp,
    sphere.SampleAction rest
      {| sphere.SampleActionRequest_Id := sphere.Id (Environment (recv st)) |} (remote st)
    = (inl sampled, remote st1)
    ∧ a = sphere.SampleActionResponse_Value sampled
    ∧ Action o = a
    ∧ (-2^31 ≤ sphere.SampleActionResponse_Value sampled < 2^31 →
       sphere.StepEnv (Client (recv st))
         {| sphere.StepEnvRequest_Id := sphere.Id (Environment (recv st));
            sphere.StepEnvRequest_Action := sphere.SampleActionResponse_Value sampled |}
         (remote st1)
       = (inl resp, remote st2)).
Proof.
  unfold Env.SampleAction. intros H Hstep.
  apply bind_Ok in H as (e & st0 & He & H). apply this_Ok in He as [-> ->].
  apply bind_Ok in H as (sampled & st0 & Hcall & H).
  apply rpc_Ok in Hcall as (Hcall & Hrecv & _).
  injection H as <- <-.
  unfold Env.Step in Hstep.
  apply bind_Ok in Hstep as (e & st3 & He & Hstep). apply this_Ok in He as [-> ->].
  apply bind_Ok in Hstep as (resp & st3 & Hresp & Hstep).
  apply rpc_Ok in Hresp as (Hresp & _ & _).
  injection Hstep as <- <-.
  exists sampled, resp. unfold int in *. simpl.
  split; [exact Hcall|]. split; [reflexivity|]. split; [reflexivity|].
  intros Hrange. rewrite Hrecv in Hresp.
  rewrite (proj2 (int32_id_iff _) Hrange) in Hresp. exact Hresp.
Qed.

Lemma SampleAction_then_Step_witness :
  ∃ sampled resp,
    sphere.SampleAction gym_rest {| sphere.SampleActionRequest_Id := "CartPole-v1-0" |} O
    = (inl sampled, 1%nat)
    ∧ 1 = sphere.SampleActionResponse_Value sampled
    ∧ 1 = 1
    ∧ (-2^31 ≤ sphere.SampleActionResponse_Value sampled < 2^31 →
       sphere.StepEnv (gym two_episodes video_streams)
         {| sphere.StepEnvRequest_Id := "CartPole-v1-0";
            sphere.StepEnvRequest_Action := sphere.SampleActionResponse_Value sampled |}
         1%nat
       = (inl resp, 2%nat)).
Proof.
  exact (SampleAction_then_Step gym_rest
           (start (env_of CartPole (gym two_episodes video_streams) [] None) ∅)
           {| recv := env_of CartPole (gym two_episodes video_streams) [] None;
              remote := 1%nat;
              disk := sound_disk ∅ |}
           {| recv := env_of CartPole (gym two_episodes video_streams) [] None;
              remote := 2%nat;
              disk := sound_disk ∅ |}
           1
           {| Observation := sphere.Tensor_Dense (obs [1; 2; 3; 4]);
              Action := 1;
              Reward := f32 1;
              Done := false |}
           eq_refl eq_refl).
Defined.

(** ** Methods that always come back *)

Lemma returns_ret {S A} (a : A) : returns_or_errs (mret a : M S A).
Proof. intros st r st' [= <- <-]. eauto. Qed.

Lemma returns_raise {S A} (err : error) : returns_or_errs (raise err : M S A).
Proof. intros st r st' [= <- <-]. eauto. Qed.

Lemma returns_this {S} : returns_or_errs (@this S).
Proof. intros st r st' [= <- <-]. eauto. Qed.

Lemma returns_set_VideoPaths {S} (videoPaths : list string) :
  returns_or_errs (@set_VideoPaths S videoPaths).
Proof. intros st r st' [= <- <-]. eauto. Qed.

Lemma returns_rpc {S A} (call : S → (A + error) * S) : returns_or_errs (rpc call).
Proof.
  intros st r st'. unfold rpc.
  destruct (call (remote st)) as [[a|err] s']; intros [= <- <-]; eauto.
Qed.

Lemma returns_sys {S A} (call : os.FileSystem → (A + error) * os.FileSystem) :
  returns_or_errs (@sys S A call).
Proof.
  intros st r st'. unfold sys.
  destruct (call (disk st)) as [[a|err] fs']; intros [= <- <-]; eauto.
Qed.

Lemma returns_bind {S A B} (m : M S A) (f : A → M S B) :
  returns_or_errs m → (∀ a, returns_or_errs (f a)) → returns_or_errs (m ≫= f).
Proof.
  intros Hm Hf st r st' H.
  apply bind_cases in H as [(a & st1 & H1 & H2) | (r0 & H1 & Hsame)].
  - exact (Hf _ _ _ _ H2).
  - destruct (Hm _ _ _ H1) as [[a ->] | [err ->]]; [destruct Hsame|].
    destruct r; try destruct Hsame. eauto.
Qed.

Create HintDb returns discriminated.
#[local] Hint Resolve returns_ret returns_raise returns_this returns_set_VideoPaths
  returns_rpc returns_sys : returns.
#[local] Hint Extern 2 (returns_or_errs (_ ≫= _)) => apply returns_bind; [|intros ?] : returns.
#[local] Hint Extern 5 (returns_or_errs (match ?x with _ => _ end)) => destruct x : returns.

Lemma returns_Results {S} : returns_or_errs (@Env.Results S).
Proof. unfold Env.Results. auto 10 with returns. Qed.

Lemma returns_recv_loop {S} (f : os.File) (msgs : list sphere.GetVideoResponse)
    (stream_end : error) (CloseSend : option error) :
  returns_or_errs (@Env.recv_loop S f msgs stream_end CloseSend).
Proof. induction msgs as [|resp msgs IH]; simpl; auto 10 with returns. Qed.

Lemma returns_videos_loop {S} (filepath_Clean : string → string) (path : string)
    (videos : list (Z * sphere.Video)) (videoPaths : list string) :
  returns_or_errs (@Env.videos_loop S filepath_Clean path videos videoPaths).
Proof.
  revert videoPaths. induction videos as [|[k video] videos IH]; intros videoPaths; simpl.
  - auto with returns.
  - pose proof (@returns_recv_loop S). auto 10 with returns.
Qed.

Lemma returns_Videos {S} (filepath_Clean : string → string) (path : string) :
  returns_or_errs (@Env.Videos S filepath_Clean path).
Proof.
  unfold Env.Videos.
  pose proof (@returns_Results S). pose proof (@returns_videos_loop S).
  auto 10 with returns.
Qed.

Lemma returns_Close {S} (rest : sphere.EnvironmentAPIClient_rest S) :
  returns_or_errs (Env.Close rest).
Proof. unfold Env.Close. auto 10 with returns. Qed.

Lemma returns_PrintResults {S} : returns_or_errs (@Env.PrintResults S).
Proof. unfold Env.PrintResults. pose proof (@returns_Results S). auto 10 with returns. Qed.

(** A guarded call to a method that always comes back: it returns the
    method's value, or the process is ended. *)
Lemma or_Fatal_returns {S A} (m : M S A) (st st' : State S) (r : result A) :
  returns_or_errs m →
  or_Fatal m st = (r, st') →
  (∃ a, r = Ok a ∧ m st = (Ok a, st'))
  ∨ (r = Exit "log.Fatal(err)" ∧ ∃ err, m st = (Err err, st')).
Proof.
  intros Hm. unfold or_Fatal.
  destruct (m st) as [r0 st0] eqn:H.
  destruct (Hm _ _ _ H) as [[a ->] | [err ->]]; intros [= <- <-]; eauto.
Qed.

Lemma bind_or_Fatal {S A B} (m : M S A) (f : A → M S B) (st st' : State S) (r : result B) :
  returns_or_errs m →
  (or_Fatal m ≫= f) st = (r, st') →
  (∃ a st1, m st = (Ok a, st1) ∧ f a st1 = (r, st')) ∨ r = Exit "log.Fatal(err)".
Proof.
  intros Hm H.
  apply bind_cases in H as [(a & st1 & H1 & H) | (r0 & H1 & Hsame)].
  - apply (or_Fatal_returns _ _ _ _ Hm) in H1 as [(a' & [= <-] & H1) | (Hr & _)];
      [left; eauto | discriminate Hr].
  - apply (or_Fatal_returns _ _ _ _ Hm) in H1 as [(a' & -> & _) | (-> & _)];
      [destruct Hsame|].
    right. destruct r; try destruct Hsame. reflexivity.
Qed.

(** A successful [Videos] and the other fields of the receiver. *)
Lemma Videos_Ok_recv {S} (filepath_Clean : string → string) (path : string)
    (st st' : State S) (videoPaths : list string) :
  Env.Videos filepath_Clean path st = (Ok videoPaths, st') →
  Environment (recv st') = Environment (recv st)
  ∧ Client (recv st') = Client (recv st)
  ∧ Normalizer (recv st') = Normalizer (recv st).
Proof.
  unfold Env.Videos. intros H.
  apply bind_Ok in H as (e & st0 & He & H). apply this_Ok in He as [-> ->].
  apply bind_Ok in H as (results & st1 & Hres & H). apply keeps_Results in Hres.
  apply bind_Ok in H as (vps & st2 & Hloop & H). apply keeps_videos_loop in Hloop.
  injection H as <- <-. simpl. rewrite Hloop, Hres. repeat split.
Qed.

(** ** End *)

(** X15: [End] never returns an error and never panics: it returns, or it
    ends the process.  When it returns, the remote has been asked for the
    results twice, once to print them and once more to save the videos; for
    each video of the second answer, in order, the remote has then been asked
    for its stream, and every stream ended cleanly; [VideoPaths] lists one
    path per video, in the temporary directory (in the default directory if
    that name were empty); the disk is the one [End] started with, with the
    bytes of each stream as the content of the file at its path; and the
    environment was deleted in the remote state the last download left, as
    the last call. *)
Theorem End_outcome {S} (filepath_Clean : string → string)
    (rest : sphere.EnvironmentAPIClient_rest S) (TempDir : string → string → string + error)
    (st st' : State S) (r : result unit) :
  Env.End filepath_Clean rest TempDir st = (r, st') →
  let id := sphere.Id (Environment (recv st)) in
  (r = Ok tt ∨ r = Exit "log.Fatal(err)")
  ∧ (r = Ok tt →
     ∃ printed s1 dir saved s2 streams s3 closed,
       sphere.Results (Client (recv st)) {| sphere.ResultsRequest_Id := id |} (remote st)
       = (inl printed, s1)
       ∧ TempDir "" "sphere" = inl dir
       ∧ sphere.Results (Client (recv st)) {| sphere.ResultsRequest_Id := id |} s1
         = (inl saved, s2)
       ∧ downloads (Client (recv st)) id (sphere.ResultsResponse_Videos saved) streams s2 s3
       ∧ VideoPaths (recv st') =
           map (fun v => Env.filepath_Join filepath_Clean
                           (if decide (dir = "") then "./results/" +:+ id else dir)
                           (id +:+ "-episode" +:+ pretty (sphere.Video_EpisodeId v.2)
                              +:+ ".mp4"))
               (sphere.ResultsResponse_Videos saved)
       ∧ length streams = length (VideoPaths (recv st'))
       ∧ os.files (disk st')
         = written (VideoPaths (recv st')) streams (os.files (disk st))
       ∧ sphere.DeleteEnv rest {| sphere.DeleteEnvRequest_Id := id |} s3
         = (inl closed, remote st')).
Proof.
  intros H id. unfold Env.End in H.
  apply bind_or_Fatal in H as [(u1 & st1 & H1 & H) | Hr];
    [| subst r; split; [right; reflexivity | discriminate] | apply returns_PrintResults].
  unfold Env.PrintResults in H1.
  apply bind_Ok in H1 as (printed & st1' & Hprint & Hret). injection Hret as _ ->.
  apply Results_Ok in Hprint as (presp & Hpcall & _ & _ & _ & Hrecv1 & Hdisk1).
  apply bind_or_Fatal in H as [(dir & st2 & H2 & H) | Hr];
    [| subst r; split; [right; reflexivity | discriminate] | apply returns_sys].
  pose proof (keeps_sys _ _ _ _ H2) as Hrecv2.
  apply sys_Ok in H2 as (Hdir & _ & Hremote2). injection Hdir as Hdir Hdisk2.
  apply bind_or_Fatal in H as [(vps & st3 & H3 & H) | Hr];
    [| subst r; split; [right; reflexivity | discriminate] | apply returns_Videos].
  pose proof (Videos_Ok_recv _ _ _ _ _ H3) as (Henv3 & _ & _).
  apply Videos_Ok_disk in H3
    as (Hpaths & _ & saved & s2 & streams & Hscall & Hvps & Hdl & Hlen & Hfiles).
  apply bind_or_Fatal in H as [(u4 & st4 & H4 & H) | Hr];
    [| subst r; split; [right; reflexivity | discriminate] | apply returns_Close].
  injection H as <- <-. split; [left; reflexivity|]. intros _.
  unfold Env.Close in H4.
  apply bind_Ok in H4 as (e & st3' & He & H4). apply this_Ok in He as [-> ->].
  apply bind_Ok in H4 as (closed & st4' & Hclose & Hret).
  apply rpc_Ok in Hclose as (Hclose & Hrecv4 & Hdisk4). injection Hret as _ <-.
  rewrite Henv3 in Hclose.
  rewrite Hrecv2, Hrecv1, Hremote2 in *. fold id in Hscall, Hvps, Hdl, Hclose.
  rewrite <- Hdisk2, Hdisk1 in Hfiles.
  exists presp, (remote st1), dir, saved, s2, streams, (remote st3), closed.
  rewrite Hrecv4, Hdisk4, Hpaths.
  split; [exact Hpcall|]. split; [exact Hdir|]. split; [exact Hscall|].
  split; [exact Hdl|]. split; [exact Hvps|]. split; [exact Hlen|].
  split; [exact Hfiles | exact Hclose].
Qed.

Lemma End_outcome_witness :
  let st' := (Env.End no_cleaning gym_rest temp_dir recording).2 in
  (Ok tt = Ok tt ∨ Ok tt = Exit "log.Fatal(err)")
  ∧ (Ok tt = Ok tt →
     ∃ printed s1 dir saved s2 streams s3 closed,
       sphere.Results (Client (recv recording))
         {| sphere.ResultsRequest_Id := sphere.Id (Environment (recv recording)) |}
         (remote recording)
       = (inl printed, s1)
       ∧ temp_dir "" "sphere" = inl dir
       ∧ sphere.Results (Client (recv recording))
           {| sphere.ResultsRequest_Id := sphere.Id (Environment (recv recording)) |} s1
         = (inl saved, s2)
       ∧ downloads (Client (recv recording)) (sphere.Id (Environment (recv recording)))
           (sphere.ResultsResponse_Videos saved) streams s2 s3
       ∧ VideoPaths (recv st') =
           map (fun v => Env.filepath_Join no_cleaning
                           (if decide (dir = "")
                            then "./results/" +:+ sphere.Id (Environment (recv recording))
                            else dir)
                           (sphere.Id (Environment (recv recording)) +:+ "-episode"
                              +:+ pretty (sphere.Video_EpisodeId v.2) +:+ ".mp4"))
               (sphere.ResultsResponse_Videos saved)
       ∧ length streams = length (VideoPaths (recv st'))
       ∧ os.files (disk st')
         = written (VideoPaths (recv st')) streams (os.files (disk recording))
       ∧ sphere.DeleteEnv gym_rest
           {| sphere.DeleteEnvRequest_Id := sphere.Id (Environment (recv recording)) |} s3
         = (inl closed, remote st')).
Proof.
  intros st'.
  refine (End_outcome no_cleaning gym_rest temp_dir recording st' (Ok tt) _).
  vm_compute. reflexivity.
Defined.

(** ** Make and its options *)

Lemma discard_result {S A} (m : M S A) (st st' : State S) (r : result unit) :
  discard m st = (r, st') → ∀ err, r ≠ Err err.
Proof.
  unfold discard. destruct (m st) as [[a|e|msg|msg] st1]; intros [= <- <-] err; discriminate.
Qed.

Lemma apply_opts_result {S} (opts : list (Opt S)) (st st' : State S) (r : result unit) :
  apply_opts opts st = (r, st') → ∀ err, r ≠ Err err.
Proof.
  revert st. induction opts as [|opt opts IH]; intros st H err; simpl in H.
  - injection H as <- _. discriminate.
  - apply bind_cases in H as [(u & st1 & _ & H) | (r0 & H & Hsame)].
    + exact (IH _ H err).
    + intros ->. pose proof (discard_result _ _ _ _ H) as Hne.
      destruct r0; try destruct Hsame. exact (Hne e eq_refl).
Qed.

Lemma apply_opts_snoc {S} (opts : list (Opt S)) (opt : Opt S) (st st' : State S) (u : unit) :
  apply_opts (opts ++ [opt]) st = (Ok u, st') →
  ∃ st1, apply_opts opts st = (Ok tt, st1) ∧ discard opt st1 = (Ok tt, st').
Proof.
  revert st. induction opts as [|o opts IH]; intros st H; simpl in H.
  - apply bind_Ok in H as ([] & st1 & Ho & H). injection H as _ <-.
    exists st. split; [reflexivity | exact Ho].
  - apply bind_Ok in H as ([] & st1 & Ho & H).
    apply IH in H as (st2 & Hopts & Hlast).
    exists st2. split; [|exact Hlast].
    simpl. unfold mbind, M_bind. rewrite Ho. exact Hopts.
Qed.

Lemma WithNormalizer_sets {S} (Init : M S unit) (normalizer : Normalizer.t)
    (st st' : State S) (u : unit) :
  discard (WithNormalizer Init normalizer) st = (Ok u, st') →
  Normalizer (recv st') = Some normalizer.
Proof.
  unfold discard.
  destruct (WithNormalizer Init normalizer st) as [r st1] eqn:H.
  unfold WithNormalizer in H.
  apply bind_cases in H as [(u1 & st0 & _ & H) | (r0 & H & Hsame)].
  - injection H as <- <-. intros [= _ <-]. reflexivity.
  - pose proof (discard_result _ _ _ _ H) as Hne.
    destruct r0 as [a|e|msg|msg]; try destruct Hsame.
    + exfalso. exact (Hne e eq_refl).
    + destruct r; try destruct Hsame. discriminate.
    + destruct r; try destruct Hsame. discriminate.
Qed.

(** X16: [Make] returns an error only when [CreateEnv] or [StartRecordEnv]
    does, and it is that error; no option has run by then and the disk is
    untouched.  When [CreateEnv] fails, [StartRecordEnv] is not called.
    Whatever goes wrong inside an option is never returned as an error. *)
Theorem Make_error_is_remote {S} (s_Client : sphere.EnvironmentAPIClient S)
    (s_rest : sphere.EnvironmentAPIClient_rest S) (model : string) (opts : list (Opt S))
    (s s' : S) (fs fs' : os.FileSystem) (err : error) :
  Make s_Client s_rest model opts s fs = (Err err, (s', fs')) →
  fs' = fs
  ∧ (sphere.CreateEnv s_rest {| sphere.CreateEnvRequest_ModelName := model |} s
     = (inr err, s')
     ∨ ∃ resp s1,
         sphere.CreateEnv s_rest {| sphere.CreateEnvRequest_ModelName := model |} s
         = (inl resp, s1)
         ∧ sphere.StartRecordEnv s_rest
             {| sphere.StartRecordEnvRequest_Id :=
                  sphere.Id (sphere.CreateEnvResponse_Environment resp) |} s1
           = (inr err, s')).
Proof.
  unfold Make.
  destruct (sphere.CreateEnv s_rest _ s) as [[resp|e1] s1] eqn:Hcreate.
  2: { intros [= <- <- <-]. split; [reflexivity | left; reflexivity]. }
  destruct (sphere.StartRecordEnv s_rest _ s1) as [[rresp|e2] s2] eqn:Hrecord.
  2: { intros [= <- <- <-]. split; [reflexivity|]. right. eauto. }
  destruct (apply_opts opts _) as [r st] eqn:Hopts.
  pose proof (apply_opts_result _ _ _ _ Hopts) as Hne.
  destruct r as [u|e|msg|msg]; intros H; try discriminate H.
  exfalso. exact (Hne e eq_refl).
Qed.

Lemma Make_error_is_remote_witness :
  sound_disk ∅ = sound_disk ∅
  ∧ (sphere.CreateEnv
       (scripted_rest (inl {| sphere.CreateEnvResponse_Environment := CartPole |})
                      (inr unavailable)
                      (inl {| sphere.SampleActionResponse_Value := 1 |})
                      (inl {| sphere.DeleteEnvResponse_Message := "deleted" |}))
       {| sphere.CreateEnvRequest_ModelName := "CartPole-v1" |} O
     = (inr unavailable, 2%nat)
     ∨ ∃ resp s1,
         sphere.CreateEnv
           (scripted_rest (inl {| sphere.CreateEnvResponse_Environment := CartPole |})
                          (inr unavailable)
                          (inl {| sphere.SampleActionResponse_Value := 1 |})
                          (inl {| sphere.DeleteEnvResponse_Message := "deleted" |}))
           {| sphere.CreateEnvRequest_ModelName := "CartPole-v1" |} O
         = (inl resp, s1)
         ∧ sphere.StartRecordEnv
             (scripted_rest (inl {| sphere.CreateEnvResponse_Environment := CartPole |})
                            (inr unavailable)
                            (inl {| sphere.SampleActionResponse_Value := 1 |})
                            (inl {| sphere.DeleteEnvResponse_Message := "deleted" |}))
             {| sphere.StartRecordEnvRequest_Id :=
                  sphere.Id (sphere.CreateEnvResponse_Environment resp) |} s1
           = (inr unavailable, 2%nat)).
Proof.
  exact (Make_error_is_remote (gym two_episodes video_streams)
           (scripted_rest (inl {| sphere.CreateEnvResponse_Environment := CartPole |})
                          (inr unavailable)
                          (inl {| sphere.SampleActionResponse_Value := 1 |})
                          (inl {| sphere.DeleteEnvResponse_Message := "deleted" |}))
           "CartPole-v1" [WithNormalizer (raise unavailable) doubling]
           O 2%nat (sound_disk ∅) (sound_disk ∅) unavailable eq_refl).
Defined.

(** X17: when the last option given to [Make] is [WithNormalizer] and [Make]
    returns a handle, the handle's normalizer is the one of that option,
    whatever the options before it did, and also when the normalizer's [Init]
    reported an error. *)
Theorem Make_last_normalizer_wins {S} (s_Client : sphere.EnvironmentAPIClient S)
    (s_rest : sphere.EnvironmentAPIClient_rest S) (model : string) (opts : list (Opt S))
    (Init : M S unit) (normalizer : Normalizer.t)
    (s s' : S) (fs fs' : os.FileSystem) (e : Env S) :
  Make s_Client s_rest model (opts ++ [WithNormalizer Init normalizer]) s fs
  = (Ok e, (s', fs')) →
  Normalizer e = Some normalizer.
Proof.
  unfold Make.
  destruct (sphere.CreateEnv s_rest _ s) as [[resp|e1] s1]; [|discriminate].
  destruct (sphere.StartRecordEnv s_rest _ s1) as [[rresp|e2] s2]; [|discriminate].
  destruct (apply_opts _ _) as [r st] eqn:Hopts.
  destruct r as [u|e0|msg|msg]; intros H; try discriminate H.
  injection H as <- _ _.
  apply apply_opts_snoc in Hopts as (st1 & _ & Hlast).
  exact (WithNormalizer_sets _ _ _ _ _ Hlast).
Qed.

Lemma Make_last_normalizer_wins_witness :
  Normalizer
    {| Environment := CartPole;
       Client := gym two_episodes video_streams;
       VideoPaths := [];
       Normalizer := Some doubling |}
  = Some doubling.
Proof.
  exact (Make_last_normalizer_wins (gym two_episodes video_streams) gym_rest "CartPole-v1"
           [WithNormalizer (mret tt) {| Normalizer.Norm := fun d => d;
                                        Normalizer.Norm_arg := fun d => d |}]
           (raise unavailable) doubling
           O 2%nat (sound_disk ∅) (sound_disk ∅) _ eq_refl).
Defined.

(** X18: a handle that [Make] returns when it is given no option is the
    environment the remote created, with recording started for the id the
    remote gave it, over the server's client, without normalizer and with
    nothing to clean: [Clean] on it returns at once and changes nothing on the
    disk. *)
Theorem Make_fresh_handle {S} (s_Client : sphere.EnvironmentAPIClient S)
    (s_rest : sphere.EnvironmentAPIClient_rest S) (model : string)
    (s s' : S) (fs fs' : os.FileSystem) (e : Env S) :
  Make s_Client s_rest model [] s fs = (Ok e, (s', fs')) →
  fs' = fs
  ∧ (∃ resp s1 rresp,
       sphere.CreateEnv s_rest {| sphere.CreateEnvRequest_ModelName := model |} s
       = (inl resp, s1)
       ∧ sphere.StartRecordEnv s_rest
           {| sphere.StartRecordEnvRequest_Id := sphere.Id (Environment e) |} s1
         = (inl rresp, s')
       ∧ Environment e = sphere.CreateEnvResponse_Environment resp)
  ∧ Client e = s_Client
  ∧ Normalizer e = None
  ∧ Env.Clean {| recv := e; remote := s'; disk := fs' |}
    = (Ok tt, {| recv := e; remote := s'; disk := fs' |}).
Proof.
  unfold Make.
  destruct (sphere.CreateEnv s_rest _ s) as [[resp|e1] s1] eqn:Hcreate; [|discriminate].
  destruct (sphere.StartRecordEnv s_rest _ s1) as [[rresp|e2] s2] eqn:Hrecord; [|discriminate].
  simpl. intros [= <- <- <-].
  split; [reflexivity|]. split; [eauto 6|]. repeat split.
Qed.

Lemma Make_fresh_handle_witness :
  sound_disk ∅ = sound_disk ∅
  ∧ (∃ resp s1 rresp,
       sphere.CreateEnv gym_rest {| sphere.CreateEnvRequest_ModelName := "CartPole-v1" |} O
       = (inl resp, s1)
       ∧ sphere.StartRecordEnv gym_rest
           {| sphere.StartRecordEnvRequest_Id := "CartPole-v1-0" |} s1
         = (inl rresp, 2%nat)
       ∧ CartPole = sphere.CreateEnvResponse_Environment resp)
  ∧ gym two_episodes video_streams = gym two_episodes video_streams
  ∧ None = (None : option Normalizer.t)
  ∧ Env.Clean {| recv := env_of CartPole (gym two_episodes video_streams) [] None;
                 remote := 2%nat;
                 disk := sound_disk ∅ |}
    = (Ok tt, {| recv := env_of CartPole (gym two_episodes video_streams) [] None;
                 remote := 2%nat;
                 disk := sound_disk ∅ |}).
Proof.
  exact (Make_fresh_handle (gym two_episodes video_streams) gym_rest "CartPole-v1"
           O 2%nat (sound_disk ∅) (sound_disk ∅)
           (env_of CartPole (gym two_episodes video_streams) [] None) eq_refl).
Defined.

(** ** Videos: a download that breaks *)

Lemma writable_same_faults (fs fs' : os.FileSystem) :
  same_faults fs fs' → writable fs → writable fs'.
Proof.
  intros (Hc & Hw & _ & _) [Hcreate Hwrite]. split.
  - intros p. rewrite Hc. apply Hcreate.
  - intros p content b. rewrite Hw. apply Hwrite.
Qed.

(** On a writable disk the receive loop runs to the end of the stream: every
    chunk is in the file when the loop ends, well or not. *)
Lemma recv_loop_run {S} (f : os.File) (msgs : list sphere.GetVideoResponse)
    (stream_end : error) (CloseSend : option error) (content : list Byte.byte)
    (st : State S) :
  writable (disk st) →
  os.files (disk st) !! f = Some content →
  ∃ st',
    Env.recv_loop f msgs stream_end CloseSend st
    = (match stream_failure {| sphere.stream_msgs := msgs;
                               sphere.stream_end := stream_end;
                               sphere.stream_CloseSend := CloseSend |} with
       | Some err => Err err
       | None => Ok tt
       end, st')
    ∧ recv st' = recv st ∧ remote st' = remote st
    ∧ same_faults (disk st) (disk st')
    ∧ os.files (disk st') =
        <[f := content ++ concat (map sphere.GetVideoResponse_Chunk msgs)]> (os.files (disk st)).
Proof.
  revert content st. induction msgs as [|resp msgs IH]; intros content st Hw Hf.
  - exists st. unfold stream_failure. simpl.
    split; [destruct stream_end, CloseSend; reflexivity|].
    repeat split. rewrite app_nil_r. symmetry. apply insert_id. exact Hf.
  - simpl. unfold mbind, M_bind, sys, os.Write.
    rewrite Hf. simpl. rewrite (proj2 Hw).
    set (st1 := {| recv := recv st; remote := remote st;
                   disk := os.with_files (disk st)
                             (<[f := content ++ sphere.GetVideoResponse_Chunk resp]>
                                (os.files (disk st))) |}).
    destruct (IH (content ++ sphere.GetVideoResponse_Chunk resp) st1)
      as (st' & Hrun & Hrecv & Hremote & Hfaults & Hfiles).
    { exact (writable_same_faults _ _ (same_faults_with_files _ _) Hw). }
    { simpl. apply lookup_insert_eq. }
    exists st'. split; [exact Hrun|]. split; [exact Hrecv|]. split; [exact Hremote|].
    split; [exact (same_faults_trans _ _ _ (same_faults_with_files _ _) Hfaults)|].
    rewrite Hfiles. simpl. rewrite insert_insert_eq, app_assoc. reflexivity.
Qed.

(** One turn of the loop over the video references, call by call. *)
Lemma videos_loop_cons {S} (filepath_Clean : string → string) (path : string)
    (v : Z * sphere.Video) (videos : list (Z * sphere.Video)) (acc : list string)
    (st : State S) :
  Env.videos_loop filepath_Clean path (v :: videos) acc st =
    let id := sphere.Id (Environment (recv st)) in
    let fp := video_path filepath_Clean path id (sphere.Video_EpisodeId v.2) in
    match sphere.GetVideo (Client (recv st))
            {| sphere.GetVideoRequest_Id := id;
               sphere.GetVideoRequest_EpisodeId := sphere.Video_EpisodeId v.2 |}
            (remote st) with
    | (inr err, s1) => (Err err, {| recv := recv st; remote := s1; disk := disk st |})
    | (inl stream, s1) =>
        match os.Create fp (disk st) with
        | (inr err, fs1) => (Err err, {| recv := recv st; remote := s1; disk := fs1 |})
        | (inl f, fs1) =>
            match Env.recv_loop f (sphere.stream_msgs stream) (sphere.stream_end stream)
                    (sphere.stream_CloseSend stream)
                    {| recv := recv st; remote := s1; disk := fs1 |} with
            | (Ok _, st2) => Env.videos_loop filepath_Clean path videos (acc ++ [fp]) st2
            | (Err err, st2) => (Err err, st2)
            | (Exit msg, st2) => (Exit msg, st2)
            | (Panic msg, st2) => (Panic msg, st2)
            end
        end
    end.
Proof.
  destruct v as [k video]. simpl.
  unfold mbind, M_bind, this, rpc, sys, video_path.
  destruct (sphere.GetVideo _ _ _) as [[stream|err] s1]; [|reflexivity]. simpl.
  destruct (os.Create _ _) as [[f|err] fs1]; reflexivity.
Qed.

Lemma videos_loop_breaks {S} (filepath_Clean : string → string) (path : string)
    (before after : list (Z * sphere.Video)) (v : Z * sphere.Video)
    (streams : list sphere.EnvironmentAPI_GetVideoClient)
    (broken : sphere.EnvironmentAPI_GetVideoClient) (err : error)
    (acc : list string) (st : State S) (s2 s3 : S) :
  let id := sphere.Id (Environment (recv st)) in
  let file := fun w : Z * sphere.Video =>
                video_path filepath_Clean path id (sphere.Video_EpisodeId w.2) in
  writable (disk st) →
  downloads (Client (recv st)) id before streams (remote st) s2 →
  sphere.GetVideo (Client (recv st))
    {| sphere.GetVideoRequest_Id := id;
       sphere.GetVideoRequest_EpisodeId := sphere.Video_EpisodeId v.2 |} s2
  = (inl broken, s3) →
  stream_failure broken = Some err →
  ∃ st',
    Env.videos_loop filepath_Clean path (before ++ v :: after) acc st = (Err err, st')
    ∧ recv st' = recv st ∧ remote st' = s3
    ∧ os.files (disk st') =
        <[file v := stream_bytes broken]> (written (map file before) streams (os.files (disk st))).
Proof.
  intros id file. subst id file. revert streams acc st.
  induction before as [|w before IH]; intros streams acc st Hw Hdl Hget Hfail.
  - destruct streams; [|contradiction]. simpl in Hdl. subst s2.
    rewrite app_nil_l, videos_loop_cons. cbv zeta. rewrite Hget.
    unfold os.Create. rewrite (proj1 Hw).
    set (fp := video_path filepath_Clean path (sphere.Id (Environment (recv st)))
                 (sphere.Video_EpisodeId v.2)).
    set (st1 := {| recv := recv st; remote := s3;
                   disk := os.with_files (disk st) (<[fp := []]> (os.files (disk st))) |}).
    destruct (recv_loop_run fp (sphere.stream_msgs broken) (sphere.stream_end broken)
                (sphere.stream_CloseSend broken) [] st1)
      as (st' & Hrun & Hrecv & Hremote & _ & Hfiles).
    { exact (writable_same_faults _ _ (same_faults_with_files _ _) Hw). }
    { simpl. apply lookup_insert_eq. }
    assert (Hf : stream_failure {| sphere.stream_msgs := sphere.stream_msgs broken;
                                   sphere.stream_end := sphere.stream_end broken;
                                   sphere.stream_CloseSend := sphere.stream_CloseSend broken |}
                 = Some err) by (destruct broken; exact Hfail).
    rewrite Hf in Hrun.
    exists st'. rewrite Hrun.
    split; [reflexivity|]. split; [exact Hrecv|]. split; [exact Hremote|].
    rewrite Hfiles. simpl. rewrite insert_insert_eq. reflexivity.
  - destruct streams as [|stream streams]; [contradiction|].
    simpl in Hdl. destruct Hdl as (s1 & Hget1 & Hend & Hclose & Hdl).
    rewrite <- app_comm_cons, videos_loop_cons. cbv zeta. rewrite Hget1.
    unfold os.Create. rewrite (proj1 Hw).
    set (fp := video_path filepath_Clean path (sphere.Id (Environment (recv st)))
                 (sphere.Video_EpisodeId w.2)).
    set (st1 := {| recv := recv st; remote := s1;
                   disk := os.with_files (disk st) (<[fp := []]> (os.files (disk st))) |}).
    destruct (recv_loop_run fp (sphere.stream_msgs stream) (sphere.stream_end stream)
                (sphere.stream_CloseSend stream) [] st1)
      as (st2 & Hrun & Hrecv & Hremote & Hfaults & Hfiles).
    { exact (writable_same_faults _ _ (same_faults_with_files _ _) Hw). }
    { simpl. apply lookup_insert_eq. }
    assert (Hnone : stream_failure {| sphere.stream_msgs := sphere.stream_msgs stream;
                                      sphere.stream_end := sphere.stream_end stream;
                                      sphere.stream_CloseSend := sphere.stream_CloseSend stream |}
                    = None) by (unfold stream_failure; simpl; rewrite Hend; exact Hclose).
    rewrite Hnone in Hrun. rewrite Hrun.
    destruct (IH streams (acc ++ [fp]) st2) as (st' & Hloop & Hrecv' & Hremote' & Hfiles').
    { apply (writable_same_faults (disk st1)); [exact Hfaults|].
      exact (writable_same_faults _ _ (same_faults_with_files _ _) Hw). }
    { rewrite Hrecv, Hremote. exact Hdl. }
    { rewrite Hrecv. exact Hget. }
    { exact Hfail. }
    exists st'. split; [exact Hloop|].
    split; [rewrite Hrecv', Hrecv; reflexivity|]. split; [exact Hremote'|].
    rewrite Hfiles', Hfiles, Hrecv. simpl. rewrite insert_insert_eq. reflexivity.
Qed.

(** X19: on a disk on which creating and writing do not fail, when the
    downloads before some video reference end cleanly and the stream of that
    reference breaks, or is refused at its close, [Videos] returns the error
    of that stream as it is, without the path.  The files saved before are
    complete, the file of the broken stream is left with every chunk received
    before the error, the references after it are never asked for, and
    [VideoPaths] is as before. *)
Theorem Videos_broken_stream {S} (filepath_Clean : string → string) (path : string)
    (st : State S) (resp : sphere.ResultsResponse) (s1 s2 s3 : S)
    (before after : list (Z * sphere.Video)) (v : Z * sphere.Video)
    (streams : list sphere.EnvironmentAPI_GetVideoClient)
    (broken : sphere.EnvironmentAPI_GetVideoClient) (err : error) :
  let id := sphere.Id (Environment (recv st)) in
  let dir := if decide (path = "") then "./results/" +:+ id else path in
  let file := fun w : Z * sphere.Video =>
                Env.filepath_Join filepath_Clean dir
                  (id +:+ "-episode" +:+ pretty (sphere.Video_EpisodeId w.2) +:+ ".mp4") in
  writable (disk st) →
  sphere.Results (Client (recv st)) {| sphere.ResultsRequest_Id := id |} (remote st)
  = (inl resp, s1) →
  sphere.ResultsResponse_Videos resp = before ++ v :: after →
  downloads (Client (recv st)) id before streams s1 s2 →
  sphere.GetVideo (Client (recv st))
    {| sphere.GetVideoRequest_Id := id;
       sphere.GetVideoRequest_EpisodeId := sphere.Video_EpisodeId v.2 |} s2
  = (inl broken, s3) →
  stream_failure broken = Some err →
  ∃ st',
    Env.Videos filepath_Clean path st = (Err err, st')
    ∧ recv st' = recv st ∧ remote st' = s3
    ∧ os.files (disk st') =
        <[file v := stream_bytes broken]> (written (map file before) streams (os.files (disk st))).
Proof.
  intros id dir file Hw Hcall Hvideos Hdl Hget Hfail.
  unfold Env.Videos, Env.Results.
  unfold mbind at 1, M_bind at 1, this.
  unfold mbind at 1, M_bind at 1.
  unfold mbind at 1, M_bind at 1, this.
  unfold mbind at 1, M_bind at 1, rpc. fold id. rewrite Hcall.
  unfold mret, M_ret. cbn [Videos]. rewrite Hvideos. fold dir.
  set (st1 := {| recv := recv st; remote := s1; disk := disk st |}).
  destruct (videos_loop_breaks filepath_Clean dir before after v streams broken err [] st1 s2 s3)
    as (st' & Hloop & Hrecv & Hremote & Hfiles); try assumption.
  exists st'. unfold mbind, M_bind. rewrite Hloop.
  split; [reflexivity|]. split; [exact Hrecv|]. split; [exact Hremote | exact Hfiles].
Qed.

Lemma Videos_broken_stream_witness :
  ∃ st',
    Env.Videos no_cleaning "/tmp/sphere" recording_broken
    = (Err (external "rpc error: code = Unavailable"), st')
    ∧ recv st' = recv recording_broken ∧ remote st' = 3%nat
    ∧ os.files (disk st') =
        <[ "/tmp/sphere/CartPole-v1-0-episode1.mp4" := [Byte.x10] ]>
          (written ["/tmp/sphere/CartPole-v1-0-episode0.mp4"]
                   [{| sphere.stream_msgs := [chunk [Byte.x00; Byte.x01]];
                       sphere.stream_end := io_EOF;
                       sphere.stream_CloseSend := None |}]
                   (os.files (disk recording_broken))).
Proof.
  refine (Videos_broken_stream no_cleaning "/tmp/sphere" recording_broken two_episodes
            1%nat 2%nat 3%nat
            [(0, {| sphere.Video_EpisodeId := 0 |})] [] (1, {| sphere.Video_EpisodeId := 1 |})
            [{| sphere.stream_msgs := [chunk [Byte.x00; Byte.x01]];
                sphere.stream_end := io_EOF;
                sphere.stream_CloseSend := None |}]
            {| sphere.stream_msgs := [chunk [Byte.x10]];
               sphere.stream_end := external "rpc error: code = Unavailable";
               sphere.stream_CloseSend := None |}
            (external "rpc error: code = Unavailable") _ eq_refl eq_refl _ eq_refl eq_refl).
  - split; intros; reflexivity.
  - simpl. exists 2%nat. repeat split.
Defined.
